(** * ipgeocheck: country distribution of the IPv4 traffic of a capture

    A shallow embedding of [ipgeocheck.py].  The script reads a capture,
    keeps the source and destination address of every packet that has an
    IPv4 layer, asks [whois] for the country of every globally routable,
    non-multicast address, and prints, for each role, the share of packets
    per country.

    What the script takes from outside is taken from outside here too: the
    two address predicates of Python's [ipaddress] module, the outcome of
    each [whois] process and the CPU count are fields of an environment
    [Env].  Text is modelled as [string], and the [str] methods on the
    ASCII range, where the characters the script looks for lie (the letters
    of "country", the space, the newline); a lookup output with characters
    outside that range is outside the model.  The percentages come twice:
    as the binary64 values the script computes ([f64_percentage]), and as
    the exact quotients of which these are the roundings ([percentage]). *)

From Stdlib Require Import ZArith NArith QArith Qround Qabs Lqa String Ascii List Lia.
From Stdlib Require PrimFloat SpecFloat FloatOps Uint63.
From stdpp Require Import base option list gmap sets strings sorting.

Local Open Scope string_scope.
Local Open Scope list_scope.
Local Open Scope nat_scope.

(** ** Python's [str] methods used by the script *)

Module PyStr.

(** [str.isspace] on the ASCII range: TAB to CR, FS to US, and the space. *)
Definition is_whitespace (c : ascii) : bool :=
  let n := N_of_ascii c in
  (((9 <=? n) && (n <=? 13)) || ((28 <=? n) && (n <=? 32)))%N.

Definition lower_char (c : ascii) : ascii :=
  let n := N_of_ascii c in
  if ((65 <=? n) && (n <=? 90))%N then ascii_of_N (n + 32) else c.

(** [s.lower()] *)
Fixpoint lower (s : string) : string :=
  match s with
  | EmptyString => EmptyString
  | String c s' => String (lower_char c) (lower s')
  end.

(** [s.startswith(p)] *)
Definition startswith (s p : string) : bool := String.prefix p s.

(** [s.split(sep)] for a one-character separator: every occurrence of
    [sep] cuts, so [k] separators give [k + 1] pieces, empty ones
    included, and the empty string gives one empty piece. *)
Fixpoint split (sep : ascii) (s : string) : list string :=
  match s with
  | EmptyString => [EmptyString]
  | String c s' =>
      if Ascii.eqb c sep then EmptyString :: split sep s'
      else match split sep s' with
           | [] => [String c EmptyString]
           | w :: ws => String c w :: ws
           end
  end.

Fixpoint lstrip (s : string) : string :=
  match s with
  | EmptyString => EmptyString
  | String c s' => if is_whitespace c then lstrip s' else s
  end.

Fixpoint rstrip (s : string) : string :=
  match s with
  | EmptyString => EmptyString
  | String c s' =>
      match rstrip s' with
      | EmptyString => if is_whitespace c then EmptyString else String c EmptyString
      | r => String c r
      end
  end.

(** [s.strip()] *)
Definition strip (s : string) : string := lstrip (rstrip s).

(** [s.split()] with no separator: the maximal runs of non-blank
    characters.  [cur] is the run being read; [flush] ends it. *)
Definition flush (cur : string) : list string :=
  if String.eqb cur "" then [] else [cur].

Fixpoint tokens_go (cur : string) (s : string) : list string :=
  match s with
  | EmptyString => flush cur
  | String c s' =>
      if is_whitespace c
      then flush cur ++ tokens_go "" s'
      else tokens_go (cur +:+ String c "") s'
  end.

Definition tokens (s : string) : list string := tokens_go "" s.

(** [c in s] *)
Fixpoint has_char (c : ascii) (s : string) : bool :=
  match s with
  | EmptyString => false
  | String c' s' => Ascii.eqb c' c || has_char c s'
  end.

(** [all(c.isspace() for c in s)] *)
Fixpoint all_whitespace (s : string) : bool :=
  match s with
  | EmptyString => true
  | String c s' => is_whitespace c && all_whitespace s'
  end.

(** [not any(c.isspace() for c in s)] *)
Fixpoint no_whitespace (s : string) : bool :=
  match s with
  | EmptyString => true
  | String c s' => negb (is_whitespace c) && no_whitespace s'
  end.

(** [l[-1]]; the default stands for an [IndexError], which no call site
    of the script can reach (see [split_not_nil]). *)
Definition last_item (l : list string) : string := List.last l "".

End PyStr.

Definition LF : ascii := Ascii.ascii_of_nat 10.
Definition SP : ascii := Ascii.ascii_of_nat 32.

(** ** The parsing half of [get_country_by_ip] *)

(** The predicate of the [filter]: [x.lower().startswith("country")]. *)
Definition is_country_line (x : string) : bool :=
  PyStr.startswith (PyStr.lower x) "country".

(** From the decoded standard output to the second component of the
    returned pair. *)
Definition country_of_output (text : string) : option string :=
  let result := PyStr.split LF text in
  let country := List.filter is_country_line result in
  match country with
  | [] => None
  | _ :: _ =>
      Some (PyStr.strip (PyStr.last_item (PyStr.split SP (PyStr.last_item country))))
  end.

(** Line 63: the name under which the progress line shows the capture,
    [file.split('/')[-1]]. *)
Definition SLASH : ascii := Ascii.ascii_of_nat 47.

Definition shown_file_name (file : string) : string :=
  PyStr.last_item (PyStr.split SLASH file).

(** ** Addresses, packets and the capture reader *)

(** An [IPv4Address] is its 32-bit value: equality and hashing go by it. *)
Abbreviation Address := N (only parsing).

Definition ipv4 (a b c d : N) : Address := (((a * 256 + b) * 256 + c) * 256 + d)%N.

Record IPLayer := { src : Address; dst : Address }.

(** A packet of the capture; [ip_layer p = None] is [sc.IP not in p]. *)
Record Packet := { ip_layer : option IPLayer }.

Definition ip_packet (s d : Address) : Packet :=
  {| ip_layer := Some {| src := s; dst := d |} |}.
Definition other_frame : Packet := {| ip_layer := None |}.

(** Modelled from the spec: scapy's [rdpcap(file, count)] is a library call,
    the capture parser of the spec, which returns the packets of the file,
    capped to the leading [count] ones; its default [count = -1], like any
    negative count, reads the whole file.  A file is given by the packets
    it holds. *)
Definition rdpcap (file : list Packet) (count : Z) : list Packet :=
  if (count <? 0)%Z then file else take (Z.to_nat count) file.

(** Truth value of an optional [int] argument: [None] and [0] are false. *)
Definition truthy (packages : option Z) : bool :=
  match packages with
  | None => false
  | Some n => negb (n =? 0)%Z
  end.

(** Lines 64 to 67. *)
Definition read_packets (file : list Packet) (packages : option Z) : list Packet :=
  if truthy packages then rdpcap file (default (-1)%Z packages)
  else rdpcap file (-1)%Z.

(** Lines 69 and 70: the comprehension over the packets that have an IPv4
    layer. *)
Definition addresses_of (field : IPLayer → Address) (packets : list Packet) : list Address :=
  omap (λ a, field <$> ip_layer a) packets.

(** ** The environment and the effects of a run *)

Inductive PyExc := OSError | UnicodeDecodeError.

(** What a finished process wrote on its standard output: bytes that decode
    as UTF-8 to a text, or bytes that do not. *)
Inductive Bytes := Utf8 (text : string) | NotUtf8.

Record CompletedProcess := { returncode : Z; stdout : Bytes }.

Record Env := {
  is_global : Address → bool;
  is_multicast : Address → bool;
  (** [subprocess.run(["whois", str(ip)], capture_output=True)]: [None] when
      the process cannot be started and the call raises. *)
  whois : Address → option CompletedProcess;
  (** [os.cpu_count()], on a platform that can tell the count. *)
  cpu_count : Z
}.

(** The [whois] processes asked for so far, oldest first. *)
Definition World := list Address.

(** A computation reads and extends the world and returns a value or
    raises. *)
Definition M (A : Type) : Type := World → (PyExc + A) * World.

Definition ret {A} (x : A) : M A := λ w, (inr x, w).
Definition raise {A} (e : PyExc) : M A := λ w, (inl e, w).
Definition bind {A B} (m : M A) (k : A → M B) : M B :=
  λ w, match m w with
       | (inl e, w') => (inl e, w')
       | (inr x, w') => k x w'
       end.

Notation "x <- m ;; k" := (bind m (λ x, k))
  (at level 100, m at next level, right associativity, only parsing).

Definition subprocess_run (E : Env) (ip : Address) : M CompletedProcess :=
  λ w, match whois E ip with
       | None => (inl OSError, w ++ [ip])
       | Some p => (inr p, w ++ [ip])
       end.

(** [b.decode("utf-8")] *)
Definition decode (b : Bytes) : M string :=
  match b with
  | Utf8 text => ret text
  | NotUtf8 => raise UnicodeDecodeError
  end.

(** Lines 24 to 36.  The return code of the process is not read. *)
Definition get_country_by_ip (E : Env) (ip : Address) : M (Address * option string) :=
  p <- subprocess_run E ip ;;
  text <- decode (stdout p) ;;
  ret (ip, country_of_output text).

(** [pool.map(f, xs)]: one call of [f] per element, whichever worker makes
    it; the results come back in the order of [xs], and an exception of a
    call is raised again in [main] and ends the run.  The calls are put in
    sequence here: no statement below depends on their order.  In a run
    that raises, the pool skips the calls that follow the raising one in
    its chunk, and may or may not make those of the other chunks before
    [main] ends; here none of them is made.  Statements about a raising
    run say only what holds in either case. *)
Fixpoint pool_map {A B} (f : A → M B) (xs : list A) : M (list B) :=
  match xs with
  | [] => ret []
  | x :: xs' =>
      y <- f x ;;
      ys <- pool_map f xs' ;;
      ret (y :: ys)
  end.

(** ** The data frame *)

(** Boolean indexing, [df.loc[mask, col].values]. *)
Fixpoint select_rows {A} (mask : list bool) (col : list A) : list A :=
  match mask, col with
  | b :: mask', x :: col' => if b then x :: select_rows mask' col' else select_rows mask' col'
  | _, _ => []
  end.

(** Element-wise [&] of two boolean columns. *)
Definition col_and (c1 c2 : list bool) : list bool := zip_with andb c1 c2.

(** Lines 76 to 85 for one role. *)
Definition valid_addresses (E : Env) (col : list Address) : list Address :=
  let col_global := map (λ x, is_global E x) col in
  let col_not_multicast := map (λ x, negb (is_multicast E x)) col in
  select_rows (col_and col_global col_not_multicast) col.

(** Lines 95 to 99. *)
Definition pool_size (cpus : Z) : Z :=
  if (cpus >=? 4)%Z then (cpus - 2)%Z else 2%Z.

(** Line 103: the dict comprehension; a later pair overwrites an earlier
    one with the same key. *)
Definition dict_of (res : list (Address * option string)) : gmap N (option string) :=
  foldl (λ m i, <[i.1 := i.2]> m) ∅ res.

(** [Series.map(mapping)]: a missing key gives a missing value, and so
    does a key bound to [None]. *)
Definition map_column (mapping : gmap N (option string)) (col : list Address)
  : list (option string) :=
  map (λ a, mjoin (mapping !! a)) col.

(** [Series.fillna(v)] *)
Definition fillna (v : string) (col : list (option string)) : list string :=
  map (default v) col.

(** Lines 107 to 111 for one role, the in-place [fillna] taking effect on
    the column of the frame. *)
Definition country_column (mapping : gmap N (option string)) (col : list Address)
  : list string :=
  fillna "LOCAL" (map_column mapping col).

Definition count_of (c : string) (col : list string) : nat :=
  length (filter (λ x, x = c) col).

Definition more_frequent (r1 r2 : string * nat) : Prop := r2.2 ≤ r1.2.

#[global] Instance more_frequent_dec : RelDecision more_frequent :=
  λ r1 r2, decide (r2.2 ≤ r1.2).

(** [Series.value_counts()]: one row per distinct value, with the number of
    its occurrences, most frequent first.  The order among values of equal
    count is not specified by pandas; the order they have here is one of
    the possible ones, and no statement depends on it. *)
Definition value_counts (col : list string) : list (string * nat) :=
  merge_sort more_frequent (map (λ c, (c, count_of c col)) (remove_dups col)).

(** The exact value of [counts / n * 100].  The script holds its binary64
    rounding, [f64_percentage] below; what is stated of the exact value is
    stated of the quotient, not of the number on the screen. *)
Definition percentage (k n : nat) : Q :=
  (inject_Z (Z.of_nat k) / inject_Z (Z.of_nat n) * 100)%Q.

Definition percentages (col : list string) : list (string * Q) :=
  map (λ r, (r.1, percentage r.2 (length col))) (value_counts col).

(** Nearest integer, ties to the even one. *)
Definition rint (q : Q) : Z :=
  let f := Qfloor q in
  match (q - inject_Z f ?= 1 # 2)%Q with
  | Lt => f
  | Gt => (f + 1)%Z
  | Eq => if Z.even f then f else (f + 1)%Z
  end.

(** The nearest hundredth of an exact value.  The script's [round(p, 2)]
    rounds the binary64 value [f64_percentage], which can fall on the other
    side of a tie. *)
Definition round2 (p : Q) : Q := (inject_Z (rint (p * 100)) / 100)%Q.

(** The rows added to one of the two inner tables (lines 119 and 120). *)
Definition table_rows (perc : list (string * Q)) : list (string * Q) :=
  map (λ r, (r.1, round2 r.2)) perc.

(** ** The binary64 values of lines 118 and 122 *)

(** The conversion of a count to binary64; exact below 2^53. *)
Definition f64_of_nat (n : nat) : PrimFloat.float :=
  PrimFloat.of_uint63 (Uint63.of_Z (Z.of_nat n)).

(** One row of [value_counts() / df.shape[0] * 100]: the true division of
    two integers, each converted to binary64, and the product of the
    quotient with 100, each operation rounded to nearest. *)
Definition f64_percentage (k n : nat) : PrimFloat.float :=
  PrimFloat.mul (PrimFloat.div (f64_of_nat k) (f64_of_nat n)) (f64_of_nat 100).

(** The series [df[col].value_counts() / df.shape[0] * 100]. *)
Definition f64_percentages (col : list string) : list (string * PrimFloat.float) :=
  map (λ r, (r.1, f64_percentage r.2 (length col))) (value_counts col).

(** The rational number a finite binary64 value is. *)
Definition f64_value (x : PrimFloat.float) : option Q :=
  match FloatOps.Prim2SF x with
  | SpecFloat.S754_zero _ => Some 0%Q
  | SpecFloat.S754_finite s m e =>
      Some ((if s then -1 else 1) * inject_Z (Zpos m) * Qpower 2 e)%Q
  | _ => None
  end.

(** ** [main] *)

(** The values [main] has built when it has printed its report.  [addrs]
    is iterated in the order of [elements], which stands for the order,
    left open by Python, in which a [set] is iterated; [tt], the rows of the
    trace table, is present when [--trace] is given.  [src_cc_perc],
    [dest_cc_perc], [inc] and [outc] hold the exact quotients and their
    nearest hundredths; the binary64 series of the script are
    [f64_percentages] of [src_country] and of [dest_country]. *)
Record Run := {
  packets : list Packet;
  source : list Address;
  dest : list Address;
  addrs : gset N;
  av_cores : Z;
  mapping : gmap N (option string);
  src_country : list string;
  dest_country : list string;
  src_cc_perc : list (string * Q);
  dest_cc_perc : list (string * Q);
  inc : list (string * Q);
  outc : list (string * Q);
  tt : option (list (Address * option string))
}.

(** Line 87. *)
Definition lookup_set (E : Env) (source dest : list Address) : gset N :=
  list_to_set (valid_addresses E source ++ valid_addresses E dest).

(** Lines 103 to 134: what [main] does with the results of the pool. *)
Definition report (packets : list Packet) (source dest : list Address) (addrs : gset N)
    (av_cores : Z) (res : list (Address * option string)) (trace : bool) : Run :=
  let mapping := dict_of res in
  let src_country := country_column mapping source in
  let dest_country := country_column mapping dest in
  let src_cc_perc := percentages src_country in
  let dest_cc_perc := percentages dest_country in
  {| packets := packets; source := source; dest := dest; addrs := addrs;
     av_cores := av_cores; mapping := mapping;
     src_country := src_country; dest_country := dest_country;
     src_cc_perc := src_cc_perc; dest_cc_perc := dest_cc_perc;
     inc := table_rows src_cc_perc; outc := table_rows dest_cc_perc;
     tt := if trace then Some (map_to_list mapping) else None |}.

Definition main (E : Env) (file : list Packet) (packages : option Z) (trace : bool)
  : M Run :=
  let packets := read_packets file packages in
  let source := addresses_of src packets in
  let dest := addresses_of dst packets in
  let addrs := lookup_set E source dest in
  let av_cores := pool_size (cpu_count E) in
  res <- pool_map (get_country_by_ip E) (elements addrs) ;;
  ret (report packets source dest addrs av_cores res trace).

(** A run from the start: no process has been asked for yet. *)
Definition run_main (E : Env) (file : list Packet) (packages : option Z) (trace : bool)
  : (PyExc + Run) * World :=
  main E file packages trace [].

(** ** Vocabulary of the statements *)

(** The eligibility test of the specification. *)
Definition is_eligible (E : Env) (a : Address) : bool :=
  is_global E a && negb (is_multicast E a).

(** The text a lookup hands to the parser, when the process starts and its
    output decodes. *)
Definition whois_text (E : Env) (a : Address) : option string :=
  match whois E a with
  | Some {| stdout := Utf8 text |} => Some text
  | _ => None
  end.

(** The country such a lookup resolves to. *)
Definition resolved (E : Env) (a : Address) : option string :=
  whois_text E a ≫= country_of_output.

(** The lookup set of a run (the value of [addrs]). *)
Definition observed_lookup_set (E : Env) (file : list Packet) (packages : option Z)
  : gset N :=
  lookup_set E (addresses_of src (read_packets file packages))
               (addresses_of dst (read_packets file packages)).

(** Two environments that differ at most in the lookup of [a]. *)
Definition same_except (a : Address) (E E' : Env) : Prop :=
  (∀ b, is_global E' b = is_global E b)
  ∧ (∀ b, is_multicast E' b = is_multicast E b)
  ∧ cpu_count E' = cpu_count E
  ∧ ∀ b, b ≠ a → whois E' b = whois E b.

(** What [main] returns when every lookup gives a text to the parser. *)
Definition completed_run (E : Env) (file : list Packet) (packages : option Z)
    (trace : bool) : Run :=
  let packets := read_packets file packages in
  let source := addresses_of src packets in
  let dest := addresses_of dst packets in
  let addrs := lookup_set E source dest in
  report packets source dest addrs (pool_size (cpu_count E))
    (map (λ a, (a, resolved E a)) (elements addrs)) trace.

(** The country a packet address is counted under. *)
Definition attributed (mapping : gmap N (option string)) (a : Address) : string :=
  default "LOCAL" (mjoin (mapping !! a)).

(** The address pairs of the packets that have an IPv4 layer. *)
Definition pairs (packets : list Packet) : list IPLayer := omap ip_layer packets.

Definition Qsum (l : list Q) : Q := foldr Qplus 0%Q l.

(** The number of address pairs whose address in the given role is counted
    under the country [c]. *)
Definition attributed_pairs (mapping : gmap N (option string))
    (role : IPLayer → Address) (c : string) (packets : list Packet) : nat :=
  length (filter (λ pr, attributed mapping (role pr) = c) (pairs packets)).

(** An address seen in the capture: the source or the destination of a
    packet that has an IPv4 layer. *)
Definition observed (packets : list Packet) (a : Address) : Prop :=
  ∃ pr, pr ∈ pairs packets ∧ (a = src pr ∨ a = dst pr).

(** The country an address is counted under, from the environment alone:
    LOCAL when it is not eligible or its lookup finds no country. *)
Definition counted_under (E : Env) (a : Address) : string :=
  if is_eligible E a then default "LOCAL" (resolved E a) else "LOCAL".

(** The number of packets whose address in the given role is counted under
    the country [c]. *)
Definition pairs_counted_under (E : Env) (role : IPLayer → Address) (c : string)
    (packets : list Packet) : nat :=
  length (filter (λ pr, counted_under E (role pr) = c) (pairs packets)).

(** The resolver as the specification words it: among the lines whose
    first whitespace-delimited token is "country" in any letter case (with
    or without the colon that ends a field name), the last one, and of it
    the final whitespace-delimited token, trimmed. *)
Definition first_token_is_country (line : string) : bool :=
  match head (PyStr.tokens (PyStr.lower line)) with
  | Some t => String.eqb t "country" || String.eqb t "country:"
  | None => false
  end.

Definition spec_country_of_output (text : string) : option string :=
  match last (List.filter first_token_is_country (PyStr.split LF text)) with
  | Some line => PyStr.strip <$> last (PyStr.tokens line)
  | None => None
  end.

(** A lookup that failed in one of the ways the specification lists: the
    process could not be started, it returned a non-zero code, or its
    output has no country line. *)
Definition lookup_failed (E : Env) (a : Address) : Prop :=
  match whois E a with
  | None => True
  | Some p => returncode p ≠ 0%Z ∨ whois_text E a ≫= country_of_output = None
  end.

(** The same text with every line feed preceded by a carriage return, as
    a lookup that ends its lines the network way prints it. *)
Fixpoint crlf (text : string) : string :=
  match text with
  | EmptyString => EmptyString
  | String c s =>
      if Ascii.eqb c LF then String (Ascii.ascii_of_nat 13) (String LF (crlf s))
      else String c (crlf s)
  end.

(** A line of the text with carriage returns is the line of the text, with
    or without a carriage return at its end. *)
Definition same_line (l l' : string) : Prop :=
  l' = l ∨ l' = l +:+ String (Ascii.ascii_of_nat 13) "".

(** ** A concrete environment for the examples *)

(** Modelled from the spec: the address classes of Python's [ipaddress]
    module, a library that is not part of the repository; the general
    statements below take the two predicates as parameters.  Multicast is
    224.0.0.0/4; global is what lies outside 100.64.0.0/10 and outside the
    private, loopback, link-local, documentation and reserved blocks of
    the special-purpose registry, 192.0.0.9 and 192.0.0.10 excepted. *)
Module Ipaddress.

Definition in_network (base : Address) (prefixlen : N) (a : Address) : bool :=
  (N.shiftr a (32 - prefixlen) =? N.shiftr base (32 - prefixlen))%N.

Definition private_networks : list (Address * N) :=
  [ (ipv4 0 0 0 0, 8); (ipv4 10 0 0 0, 8); (ipv4 127 0 0 0, 8);
    (ipv4 169 254 0 0, 16); (ipv4 172 16 0 0, 12); (ipv4 192 0 0 0, 24);
    (ipv4 192 0 0 170, 31); (ipv4 192 0 2 0, 24); (ipv4 192 168 0 0, 16);
    (ipv4 198 18 0 0, 15); (ipv4 198 51 100 0, 24); (ipv4 203 0 113 0, 24);
    (ipv4 240 0 0 0, 4); (ipv4 255 255 255 255, 32) ]%N.

Definition private_networks_exceptions : list (Address * N) :=
  [ (ipv4 192 0 0 9, 32); (ipv4 192 0 0 10, 32) ]%N.

Definition is_private (a : Address) : bool :=
  existsb (λ net, in_network net.1 net.2 a) private_networks
  && forallb (λ net, negb (in_network net.1 net.2 a)) private_networks_exceptions.

Definition is_global (a : Address) : bool :=
  negb (in_network (ipv4 100 64 0 0) 10 a) && negb (is_private a).

Definition is_multicast (a : Address) : bool :=
  in_network (ipv4 224 0 0 0) 4 a.

End Ipaddress.

Definition CR : string := String (Ascii.ascii_of_nat 13) "".
Definition NL : string := String LF "".
Definition TAB : string := String (Ascii.ascii_of_nat 9) "".

(** An environment with the above classes, eight CPUs, and a [whois] given
    by a table. *)
Definition table_env (w : Address → option CompletedProcess) : Env :=
  {| is_global := Ipaddress.is_global; is_multicast := Ipaddress.is_multicast;
     whois := w; cpu_count := 8 |}.

Definition exits (code : Z) (text : string) : option CompletedProcess :=
  Some {| returncode := code; stdout := Utf8 text |}.

(** Every lookup answers with a United States record. *)
Definition all_us : Env :=
  table_env (λ _, exits 0 ("NetRange: x" +:+ NL +:+ "Country:        US" +:+ NL)).

(** The lookup of 8.8.8.8 prints its record and returns 1; 1.1.1.1 has a
    record with no country; 9.9.9.9 cannot be started. *)
Definition flaky : Env :=
  table_env (λ a,
    if (a =? ipv4 8 8 8 8)%N then exits 1 ("country: US" +:+ NL)
    else if (a =? ipv4 1 1 1 1)%N then exits 0 ("% no match" +:+ NL)
    else if (a =? ipv4 9 9 9 9)%N then None
    else exits 0 ("country: AU" +:+ NL)).

(** No [whois] program on a machine of two CPUs: no lookup can be
    started. *)
Definition no_whois : Env :=
  {| is_global := Ipaddress.is_global; is_multicast := Ipaddress.is_multicast;
     whois := λ _, None; cpu_count := 2 |}.

(** Nine packets from nine public sources to a private destination. *)
Definition capture_nine : list Packet :=
  map (λ s, ip_packet s (ipv4 10 0 0 1))
    [ ipv4 1 1 1 1; ipv4 1 0 0 1; ipv4 8 8 8 8; ipv4 8 8 4 4; ipv4 9 9 9 9;
      ipv4 4 2 2 1; ipv4 4 2 2 2; ipv4 208 67 222 222; ipv4 208 67 220 220 ].

(** 160 packets, 23 of them from 8.8.8.8 and the others local. *)
Definition capture_23_of_160 : list Packet :=
  replicate 23 (ip_packet (ipv4 8 8 8 8) (ipv4 10 0 0 1))
  ++ replicate 137 (ip_packet (ipv4 10 0 0 5) (ipv4 10 0 0 1)).

(** Three packets whose sources are counted under three countries. *)
Definition capture_thirds : list Packet :=
  [ ip_packet (ipv4 8 8 8 8) (ipv4 10 0 0 1);
    ip_packet (ipv4 4 2 2 1) (ipv4 10 0 0 1);
    ip_packet (ipv4 10 0 0 5) (ipv4 10 0 0 1) ].

(** Five frames: 1.1.1.1 and 8.8.8.8 (twice) are global sources, 10.0.0.5
    is a private one, one frame has no IPv4 layer, and the destinations are
    private or multicast. *)
Definition capture_mixed : list Packet :=
  [ ip_packet (ipv4 1 1 1 1) (ipv4 10 0 0 1);
    ip_packet (ipv4 10 0 0 5) (ipv4 10 0 0 1);
    ip_packet (ipv4 8 8 8 8) (ipv4 10 0 0 1);
    other_frame;
    ip_packet (ipv4 8 8 8 8) (ipv4 224 0 0 1) ].

(** Local traffic only. *)
Definition capture_local : list Packet :=
  [ ip_packet (ipv4 10 0 0 5) (ipv4 10 0 0 1);
    ip_packet (ipv4 192 168 1 7) (ipv4 10 0 0 1);
    ip_packet (ipv4 10 0 0 1) (ipv4 224 0 0 251) ].

(** One local IPv4 packet and one frame of another protocol. *)
Definition capture_ip_and_arp : list Packet :=
  [ ip_packet (ipv4 10 0 0 5) (ipv4 10 0 0 1); other_frame ].

(** No IPv4 packet at all. *)
Definition capture_arp_only : list Packet := [ other_frame; other_frame ].

(** * Facts *)

(** ** Strings *)

Module PyStrFacts.
Import PyStr.

Lemma app_nil s : "" +:+ s = s.
Proof. reflexivity. Qed.

Lemma app_cons c s t : String c s +:+ t = String c (s +:+ t).
Proof. reflexivity. Qed.

Lemma split_not_nil sep s : split sep s ≠ [].
Proof. destruct s as [|c s]; simpl; [done|]. destruct (Ascii.eqb c sep), (split sep s); done. Qed.

Lemma last_item_cons x y (l : list string) : last_item (x :: y :: l) = last_item (y :: l).
Proof. reflexivity. Qed.

Lemma last_item_app (l1 l2 : list string) : l2 ≠ [] → last_item (l1 ++ l2) = last_item l2.
Proof.
  intros Hne. induction l1 as [|x l1 IH]; [done|].
  simpl app. destruct (l1 ++ l2) eqn:Happ.
  - apply app_eq_nil in Happ as [_ ->]. done.
  - rewrite last_item_cons. exact IH.
Qed.

Lemma last_item_snoc (l : list string) x : last_item (l ++ [x]) = x.
Proof. rewrite last_item_app; done. Qed.

(** A string without the separator is a single piece. *)
Lemma split_no_sep sep s : has_char sep s = false → split sep s = [s].
Proof.
  induction s as [|c s IH]; simpl; [done|].
  intros [Hc Hs]%orb_false_iff. rewrite Hc, (IH Hs). done.
Qed.

(** The pieces after a separator are the pieces of what follows it. *)
Lemma split_app sep pre t :
  ∃ l, l ≠ [] ∧ split sep (pre +:+ String sep t) = l ++ split sep t.
Proof.
  induction pre as [|c pre (l & Hl & IH)]; simpl.
  - rewrite Ascii.eqb_refl. by exists [""].
  - rewrite IH. destruct (Ascii.eqb c sep).
    + by exists ("" :: l).
    + destruct l as [|w l]; [done|]. by exists (String c w :: l).
Qed.

Lemma last_split_after sep pre t :
  has_char sep t = false → last_item (split sep (pre +:+ String sep t)) = t.
Proof.
  intros Ht. destruct (split_app sep pre t) as (l & _ & ->).
  rewrite last_item_app by apply split_not_nil.
  by rewrite (split_no_sep _ _ Ht).
Qed.

(** The last piece holds no separator, and it is the whole string or what
    follows its last separator. *)
Lemma last_split_spec sep s :
  let t := last_item (split sep s) in
  has_char sep t = false ∧ (s = t ∨ ∃ pre, s = pre +:+ String sep t).
Proof.
  induction s as [|c s [IHc IHs]]; simpl; [by auto|].
  pose proof (split_not_nil sep s) as Hne.
  destruct (Ascii.eqb c sep) eqn:Hc.
  - apply Ascii.eqb_eq in Hc as ->.
    destruct (split sep s) as [|w ws] eqn:Hs; [done|].
    rewrite last_item_cons. split; [done|]. right.
    destruct IHs as [->|[pre ->]].
    + by exists "".
    + by exists (String sep pre).
  - destruct (split sep s) as [|w ws] eqn:Hs; [done|].
    destruct ws as [|w' ws].
    + change (last_item [w]) with w in *.
      change (last_item [String c w]) with (String c w).
      simpl. rewrite Hc, IHc. split; [done|].
      destruct IHs as [->|[pre ->]]; [by left|].
      exfalso. destruct (split_app sep pre w) as (l & Hl & Heq).
      rewrite Heq in Hs. pose proof (split_not_nil sep w).
      destruct l as [|? [|? ?]], (split sep w); done.
    + rewrite !last_item_cons in *. split; [done|].
      destruct IHs as [->|[pre ->]].
      * exfalso. rewrite (split_no_sep _ _ IHc) in Hs. done.
      * right. by exists (String c pre).
Qed.

Lemma lower_app s1 s2 : lower (s1 +:+ s2) = lower s1 +:+ lower s2.
Proof. induction s1 as [|c s1 IH]; simpl; [done|]. by rewrite IH. Qed.

Lemma lower_length s : String.length (lower s) = String.length s.
Proof. induction s as [|c s IH]; simpl; [done|]. by rewrite IH. Qed.

Lemma prefix_app p s : String.prefix p s = true ↔ ∃ r, s = p +:+ r.
Proof.
  revert s. induction p as [|c p IH]; intros s; simpl.
  - split; [by exists s|by destruct s].
  - destruct s as [|c' s]; [split; [done|by intros [? ?]]|].
    simpl. destruct (ascii_dec c c') as [->|Hne].
    + rewrite IH. split; intros [r Hr]; exists r.
      * by rewrite Hr.
      * by injection Hr.
    + split; [done|]. intros [r Hr]. injection Hr as Hc _. done.
Qed.

Lemma lower_eq_app s u v :
  lower s = u +:+ v → ∃ p r, s = p +:+ r ∧ lower p = u ∧ lower r = v.
Proof.
  revert u. induction s as [|c s IH]; intros u; simpl.
  - destruct u; [|done]. rewrite app_nil. intros <-. by exists "", "".
  - destruct u as [|c' u]; rewrite ?app_nil, ?app_cons.
    + intros <-. by exists "", (String c s).
    + intros [= <- (p & r & -> & <- & <-)%IH].
      by exists (String c p), r.
Qed.

Lemma app_assoc s1 s2 s3 : (s1 +:+ s2) +:+ s3 = s1 +:+ (s2 +:+ s3).
Proof. induction s1 as [|c s1 IH]; [done|]. by rewrite !app_cons, IH. Qed.

Lemma rstrip_all_whitespace w : all_whitespace w = true → rstrip w = "".
Proof.
  induction w as [|c w IH]; simpl; [done|].
  intros [Hc Hw]%andb_true_iff. by rewrite (IH Hw), Hc.
Qed.

Lemma rstrip_token t w :
  t ≠ "" → no_whitespace t = true → all_whitespace w = true → rstrip (t +:+ w) = t.
Proof.
  intros Hne Ht Hw. induction t as [|c t IH]; [done|].
  rewrite app_cons. simpl in *. apply andb_true_iff in Ht as [Hc Ht].
  destruct t as [|c' t].
  - rewrite app_nil, (rstrip_all_whitespace _ Hw).
    by apply negb_true_iff in Hc as ->.
  - rewrite IH by done. done.
Qed.

Lemma lstrip_token t : no_whitespace t = true → lstrip t = t.
Proof.
  destruct t as [|c t]; simpl; [done|].
  by intros [->%negb_true_iff _]%andb_true_iff.
Qed.

(** A token followed by blank characters strips to the token. *)
Lemma strip_token t w :
  t ≠ "" → no_whitespace t = true → all_whitespace w = true → strip (t +:+ w) = t.
Proof.
  intros Hne Ht Hw. unfold strip. rewrite rstrip_token by done.
  by apply lstrip_token.
Qed.

Lemma has_char_app c s1 s2 : has_char c (s1 +:+ s2) = has_char c s1 || has_char c s2.
Proof.
  induction s1 as [|c' s1 IH]; [done|].
  rewrite app_cons. simpl. by rewrite IH, orb_assoc.
Qed.

Lemma no_whitespace_no_space t : no_whitespace t = true → has_char SP t = false.
Proof.
  induction t as [|c t IH]; simpl; [done|].
  intros [Hc Ht]%andb_true_iff. rewrite (IH Ht), orb_false_r.
  destruct (Ascii.eqb_spec c SP) as [->|]; [done|done].
Qed.

Lemma tokens_go_all_whitespace cur w :
  all_whitespace w = true → tokens_go cur w = flush cur.
Proof.
  revert cur. induction w as [|c w IH]; intros cur; simpl; [done|].
  intros [-> Hw]%andb_true_iff. rewrite (IH "" Hw). unfold flush. simpl.
  by rewrite app_nil_r.
Qed.

(** A blank character ends the token being read. *)
Lemma tokens_go_app cur s1 c s2 :
  is_whitespace c = true →
  tokens_go cur (s1 +:+ String c s2) = tokens_go cur s1 ++ tokens_go "" s2.
Proof.
  intros Hc. revert cur. induction s1 as [|d s1 IH]; intros cur.
  - rewrite app_nil. simpl. by rewrite Hc.
  - rewrite app_cons. simpl. destruct (is_whitespace d).
    + by rewrite IH, List.app_assoc.
    + apply IH.
Qed.

Lemma tokens_go_token cur t w :
  cur +:+ t ≠ "" → no_whitespace t = true → all_whitespace w = true →
  tokens_go cur (t +:+ w) = [cur +:+ t].
Proof.
  revert cur. induction t as [|c t IH]; intros cur Hne Ht Hw.
  - rewrite app_nil, tokens_go_all_whitespace by done. unfold flush.
    destruct (String.eqb_spec cur "") as [->|_]; [done|].
    f_equal. clear. induction cur as [|c cur IH]; [done|]. by rewrite app_cons, <- IH.
  - simpl in Ht. apply andb_true_iff in Ht as [Hc%negb_true_iff Ht].
    rewrite app_cons. simpl. rewrite Hc.
    rewrite IH, app_assoc; try done. rewrite app_assoc. simpl.
    intros Heq. destruct cur; done.
Qed.

End PyStrFacts.

(** ** Lists and columns *)

(** The last element of a filtered list is the last element of the list
    that passes the filter. *)
Lemma filter_last_spec {A} (f : A → bool) (l : list A) (d : A) :
  (List.filter f l = [] ∧ ∀ x, x ∈ l → f x = false)
  ∨ ∃ before x after,
      l = before ++ x :: after ∧ f x = true ∧ (∀ y, y ∈ after → f y = false)
      ∧ List.filter f l ≠ [] ∧ List.last (List.filter f l) d = x.
Proof.
  induction l as [|y l IH] using rev_ind.
  - left. split; [done|]. by intros x ?%elem_of_nil.
  - rewrite List.filter_app. simpl. destruct (f y) eqn:Hy.
    + right. exists l, y, []. split_and!; try done.
      * by intros ? ?%elem_of_nil.
      * by destruct (List.filter f l).
      * apply List.last_last.
    + rewrite app_nil_r. destruct IH as [[Hnil Hall]|(b & x & a & -> & Hx & Ha & Hne & Hlast)].
      * left. split; [done|]. intros x [?| ->%list_elem_of_singleton]%elem_of_app; auto.
      * right. exists b, x, (a ++ [y]). rewrite <- app_assoc. split_and!; try done.
        intros z [?| ->%list_elem_of_singleton]%elem_of_app; auto.
Qed.

Lemma select_rows_filter {A} (f g : A → bool) (col : list A) :
  select_rows (col_and (map f col) (map g col)) col = List.filter (λ x, f x && g x) col.
Proof.
  induction col as [|x col IH]; [done|].
  unfold col_and in *. simpl. rewrite IH. done.
Qed.

Lemma valid_addresses_filter E col :
  valid_addresses E col = List.filter (is_eligible E) col.
Proof. apply (select_rows_filter (is_global E) (λ x, negb (is_multicast E x))). Qed.

Lemma elem_of_valid_addresses E col a :
  a ∈ valid_addresses E col ↔ a ∈ col ∧ is_eligible E a = true.
Proof. rewrite valid_addresses_filter, !list_elem_of_In. apply List.filter_In. Qed.

Lemma elem_of_lookup_set E source dest a :
  a ∈ lookup_set E source dest ↔ (a ∈ source ∨ a ∈ dest) ∧ is_eligible E a = true.
Proof.
  unfold lookup_set. rewrite elem_of_list_to_set, elem_of_app, !elem_of_valid_addresses.
  tauto.
Qed.

(** ** The resolver's parser *)

Lemma is_country_line_spec line :
  is_country_line line = true ↔ ∃ p rest, line = p +:+ rest ∧ PyStr.lower p = "country".
Proof.
  unfold is_country_line, PyStr.startswith. rewrite PyStrFacts.prefix_app. split.
  - intros [r (p & rest & -> & Hp & _)%PyStrFacts.lower_eq_app]. by exists p, rest.
  - intros (p & rest & -> & Hp). exists (PyStr.lower rest).
    by rewrite PyStrFacts.lower_app, Hp.
Qed.

(** Where the specification and the resolver agree: when the last token of
    a line comes after a space and is followed by blank characters other
    than the space (a carriage return, say), what the resolver extracts
    from the line is that token. *)
Lemma final_token_after_space pre t w :
  t ≠ "" → PyStr.no_whitespace t = true →
  PyStr.all_whitespace w = true → PyStr.has_char SP w = false →
  PyStr.strip (PyStr.last_item (PyStr.split SP (pre +:+ String SP (t +:+ w)))) = t
  ∧ last (PyStr.tokens (pre +:+ String SP (t +:+ w))) = Some t.
Proof.
  intros Hne Ht Hw Hsp. split.
  - rewrite PyStrFacts.last_split_after.
    + by apply PyStrFacts.strip_token.
    + by rewrite PyStrFacts.has_char_app, PyStrFacts.no_whitespace_no_space, Hsp.
  - unfold PyStr.tokens. rewrite PyStrFacts.tokens_go_app by done.
    rewrite (PyStrFacts.tokens_go_token "" t w) by done.
    rewrite PyStrFacts.app_nil. apply last_snoc.
Qed.

Lemma filter_last_intro {A} (f : A → bool) (before after : list A) (x d : A) :
  f x = true → (∀ y, y ∈ after → f y = false) →
  List.filter f (before ++ x :: after) ≠ []
  ∧ List.last (List.filter f (before ++ x :: after)) d = x.
Proof.
  intros Hx Hafter. rewrite List.filter_app. simpl. rewrite Hx.
  assert (List.filter f after = []) as ->.
  { clear Hx. induction after as [|y after IH]; [done|]. simpl.
    rewrite Hafter by (by left). apply IH. intros z Hz. apply Hafter. by right. }
  split; [by destruct (List.filter f before)|]. apply List.last_last.
Qed.

(** X16: when the last country line of an output ends with a token that
    comes after a space and is followed by nothing but blank characters
    other than the space, the parser returns that token. *)
Lemma country_of_output_final_token text before pre t w after :
  PyStr.split LF text = before ++ (pre +:+ String SP (t +:+ w)) :: after →
  is_country_line (pre +:+ String SP (t +:+ w)) = true →
  (∀ l, l ∈ after → is_country_line l = false) →
  t ≠ "" → PyStr.no_whitespace t = true →
  PyStr.all_whitespace w = true → PyStr.has_char SP w = false →
  country_of_output text = Some t.
Proof.
  intros Hsplit Hline Hafter Hne Ht Hw Hsp. unfold country_of_output.
  rewrite Hsplit.
  destruct (filter_last_intro is_country_line before after _ "" Hline Hafter)
    as [Hnil Hlast].
  unfold PyStr.last_item at 2. rewrite Hlast.
  destruct (List.filter _ _); [done|].
  f_equal. by apply final_token_after_space.
Qed.

(** C2 (as amended): the resolver keeps the lines that begin with the seven
    letters of "country" in any letter case; when there is none the country
    is [None]; otherwise it takes the last of them and returns what follows
    the last space of that line (the whole line when it has no space),
    stripped of the blank characters at both ends. *)
Theorem country_of_output_last_prefixed_line (text : string) :
  (∀ line, is_country_line line = true
           ↔ ∃ p rest, line = p +:+ rest ∧ PyStr.lower p = "country")
  ∧ ((country_of_output text = None
      ∧ ∀ line, line ∈ PyStr.split LF text → is_country_line line = false)
     ∨ ∃ before line after tail,
         PyStr.split LF text = before ++ line :: after
         ∧ is_country_line line = true
         ∧ (∀ l, l ∈ after → is_country_line l = false)
         ∧ PyStr.has_char SP tail = false
         ∧ (line = tail ∨ ∃ pre, line = pre +:+ String SP tail)
         ∧ country_of_output text = Some (PyStr.strip tail)).
Proof.
  split; [apply is_country_line_spec|].
  unfold country_of_output.
  destruct (filter_last_spec is_country_line (PyStr.split LF text) "")
    as [[-> Hall]|(b & x & a & Hsplit & Hx & Ha & Hne & Hlast)].
  - by left.
  - right. exists b, x, a, (PyStr.last_item (PyStr.split SP x)).
    destruct (PyStrFacts.last_split_spec SP x) as [Hsp Hshape].
    split_and!; try done.
    unfold PyStr.last_item at 2. rewrite Hlast.
    by destruct (List.filter is_country_line (PyStr.split LF text)).
Qed.

(** C2 (as stated) fails on a country line that ends with a space: the
    resolver returns the empty string, not the final token. *)
Lemma country_of_output_not_final_token :
  let text := "NetRange: 8.8.8.0 - 8.8.8.255" +:+ NL +:+ "country: US " +:+ NL in
  country_of_output text = Some ""
  ∧ spec_country_of_output text = Some "US"
  ∧ country_of_output text ≠ spec_country_of_output text.
Proof. by vm_compute. Qed.

(** ** Eligibility *)

(** C1: for either role the addresses kept for the lookup are those the
    predicate [is_global and not is_multicast] accepts, and an address is
    in the lookup set exactly when it occurs in some role and is accepted. *)
Theorem eligible_iff_in_lookup_set (E : Env) (source dest : list Address) :
  valid_addresses E source
    = List.filter (λ a, is_global E a && negb (is_multicast E a)) source
  ∧ valid_addresses E dest
    = List.filter (λ a, is_global E a && negb (is_multicast E a)) dest
  ∧ ∀ a, a ∈ lookup_set E source dest
         ↔ (a ∈ source ∨ a ∈ dest) ∧ is_global E a && negb (is_multicast E a) = true.
Proof.
  split_and!; try apply valid_addresses_filter.
  intros a. apply elem_of_lookup_set.
Qed.

(** ** The size of the pool *)

(** C5: the pool has [max(2, cpus - 2)] workers when [cpus >= 4] and 2
    otherwise; 8 CPUs give 6 workers, 4 give 2 and 2 give 2. *)
Theorem pool_size_formula :
  (∀ cpus : Z,
     pool_size cpus = if (cpus >=? 4)%Z then Z.max 2 (cpus - 2) else 2%Z)
  ∧ pool_size 8 = 6%Z ∧ pool_size 4 = 2%Z ∧ pool_size 2 = 2%Z.
Proof.
  split; [|done]. intros cpus. unfold pool_size.
  destruct (cpus >=? 4)%Z eqn:H; [|done]. lia.
Qed.

(** ** The pool *)

Lemma get_country_by_ip_answer E a w text :
  whois_text E a = Some text →
  get_country_by_ip E a w = (inr (a, country_of_output text), w ++ [a]).
Proof.
  unfold whois_text, get_country_by_ip, bind, subprocess_run.
  destruct (whois E a) as [[rc [t|]]|]; intros [= <-]; done.
Qed.

Lemma get_country_by_ip_raises E a w :
  whois_text E a = None → ∃ e, get_country_by_ip E a w = (inl e, w ++ [a]).
Proof.
  unfold whois_text, get_country_by_ip, bind, subprocess_run.
  destruct (whois E a) as [[rc [t|]]|]; intros [=]; eauto.
Qed.

(** When every lookup answers, the pool calls the resolver once for each
    element, in turn, and returns the pairs in the same order. *)
Lemma pool_map_answers E (l : list Address) w :
  (∀ a, a ∈ l → is_Some (whois_text E a)) →
  pool_map (get_country_by_ip E) l w
  = (inr (map (λ a, (a, resolved E a)) l), w ++ l).
Proof.
  revert w. induction l as [|a l IH]; intros w Hall; simpl.
  - by rewrite app_nil_r.
  - destruct (Hall a) as [text Ha]; [by left|].
    unfold bind at 1. rewrite (get_country_by_ip_answer _ _ _ _ Ha).
    unfold bind at 1. rewrite IH by (intros; apply Hall; by right).
    unfold ret, resolved. rewrite Ha, <- app_assoc. done.
Qed.

(** One lookup that does not answer makes the pool raise. *)
Lemma pool_map_raises E (l : list Address) w a :
  a ∈ l → whois_text E a = None →
  ∃ e w', pool_map (get_country_by_ip E) l w = (inl e, w').
Proof.
  revert w. induction l as [|b l IH]; intros w Hin Ha; [by apply elem_of_nil in Hin|].
  simpl. unfold bind at 1.
  destruct (whois_text E b) as [text|] eqn:Hb.
  - rewrite (get_country_by_ip_answer _ _ _ _ Hb). unfold bind at 1.
    apply elem_of_cons in Hin as [->|Hin]; [congruence|].
    destruct (IH (w ++ [b]) Hin Ha) as (e & w' & ->). eauto.
  - destruct (get_country_by_ip_raises E b w Hb) as [e ->]. eauto.
Qed.

(** Whatever the lookups do, the processes started are a leading part of
    the list given to the pool. *)
Lemma pool_map_world E (l : list Address) w :
  ∃ k, (pool_map (get_country_by_ip E) l w).2 = w ++ take k l.
Proof.
  revert w. induction l as [|a l IH]; intros w.
  - exists 0. simpl. by rewrite app_nil_r.
  - simpl. unfold bind at 1. destruct (whois_text E a) as [text|] eqn:Ha.
    + rewrite (get_country_by_ip_answer _ _ _ _ Ha). unfold bind at 1.
      destruct (IH (w ++ [a])) as [k Hk]. exists (S k).
      destruct (pool_map (get_country_by_ip E) l (w ++ [a])) as [[e|ys] w']; simpl in *;
        by rewrite Hk, <- app_assoc.
    + destruct (get_country_by_ip_raises E a w Ha) as [e ->]. by exists 1.
Qed.

Lemma main_completes E file packages trace :
  let packets := read_packets file packages in
  let addrs := lookup_set E (addresses_of src packets) (addresses_of dst packets) in
  (∀ a, a ∈ addrs → is_Some (whois_text E a)) →
  run_main E file packages trace
  = (inr (completed_run E file packages trace), elements addrs).
Proof.
  intros packets addrs Hall. unfold run_main, main, bind.
  rewrite pool_map_answers; [done|].
  intros a Ha. apply Hall. by apply elem_of_elements.
Qed.

Lemma main_raises E file packages trace a :
  let packets := read_packets file packages in
  let addrs := lookup_set E (addresses_of src packets) (addresses_of dst packets) in
  a ∈ addrs → whois_text E a = None →
  ∃ e w, run_main E file packages trace = (inl e, w).
Proof.
  intros packets addrs Ha Hnone.
  destruct (pool_map_raises E (elements addrs) [] a) as (e & w & Heq);
    [by apply elem_of_elements|done|].
  exists e, w. unfold run_main, main, bind. subst addrs packets. by rewrite Heq.
Qed.

(** ** The mapping *)

Lemma dict_of_lookup (f : Address → option string) (l : list Address) a :
  dict_of (map (λ a, (a, f a)) l) !! a = if decide (a ∈ l) then Some (f a) else None.
Proof.
  unfold dict_of.
  assert (∀ m : gmap N (option string),
            foldl (λ m i, <[i.1 := i.2]> m) m (map (λ a, (a, f a)) l) !! a
            = if decide (a ∈ l) then Some (f a) else m !! a) as H.
  { induction l as [|b l IH]; intros m; simpl.
    - repeat case_decide; try done; exfalso; set_solver.
    - rewrite IH. destruct (decide (a ∈ l)) as [Hl|Hl].
      + by rewrite decide_True by set_solver.
      + destruct (decide (a = b)) as [->|Hne].
        * rewrite decide_True by set_solver. by rewrite lookup_insert_eq.
        * rewrite decide_False by (by intros [?|?]%elem_of_cons).
          by rewrite lookup_insert_ne. }
  rewrite H. by case_decide.
Qed.

Lemma completed_mapping_lookup E file packages trace a :
  let r := completed_run E file packages trace in
  mapping r !! a = if decide (a ∈ addrs r) then Some (resolved E a) else None.
Proof.
  simpl. rewrite dict_of_lookup.
  repeat case_decide; try done; exfalso; set_solver.
Qed.

Lemma completed_mapping_dom E file packages trace :
  let r := completed_run E file packages trace in
  dom (mapping r) = addrs r.
Proof.
  intros r. apply set_eq. intros a.
  rewrite elem_of_dom. unfold r. rewrite completed_mapping_lookup.
  case_decide; [by split; eauto|]. split; [by intros [? ?]|done].
Qed.

Lemma country_column_attributed m col :
  country_column m col = map (attributed m) col.
Proof. unfold country_column, fillna, map_column. by rewrite map_map. Qed.

Lemma same_except_lookup_set a E E' source dest :
  same_except a E E' → lookup_set E' source dest = lookup_set E source dest.
Proof.
  intros (Hg & Hm & _ & _). apply set_eq. intros b.
  rewrite !elem_of_lookup_set. unfold is_eligible. by rewrite Hg, Hm.
Qed.

Lemma same_except_resolved a E E' b :
  same_except a E E' → b ≠ a → resolved E' b = resolved E b.
Proof.
  intros (_ & _ & _ & Hw) Hne. unfold resolved, whois_text. by rewrite Hw.
Qed.

(** ** Soft failures *)

(** C4 (as amended): when every lookup process of the batch starts and its
    output decodes, an address whose output has no country line gets
    [None], whatever the return code; the run completes, the address is
    counted under LOCAL, every address of the batch is bound to the result
    of its own lookup, and the results of the other addresses do not change
    with what the lookup of that address prints. *)
Theorem missing_country_is_contained (E : Env) (file : list Packet)
    (packages : option Z) (trace : bool) (a : Address) :
  (∀ b, b ∈ observed_lookup_set E file packages → is_Some (whois_text E b)) →
  a ∈ observed_lookup_set E file packages →
  resolved E a = None →
  ∃ r, run_main E file packages trace
       = (inr r, elements (observed_lookup_set E file packages))
     ∧ mapping r !! a = Some None
     ∧ attributed (mapping r) a = "LOCAL"
     ∧ src_country r = map (attributed (mapping r)) (source r)
     ∧ dest_country r = map (attributed (mapping r)) (dest r)
     ∧ (∀ b, b ∈ observed_lookup_set E file packages →
             mapping r !! b = Some (resolved E b))
     ∧ ∀ E', same_except a E E' → is_Some (whois_text E' a) →
         ∃ r', run_main E' file packages trace
               = (inr r', elements (observed_lookup_set E file packages))
             ∧ ∀ b, b ≠ a → mapping r' !! b = mapping r !! b.
Proof.
  intros Hall Ha Hnone. exists (completed_run E file packages trace).
  assert (∀ b, b ∈ observed_lookup_set E file packages →
            mapping (completed_run E file packages trace) !! b = Some (resolved E b))
    as Hmap.
  { intros b Hb. rewrite completed_mapping_lookup. by rewrite decide_True. }
  split_and!.
  - by apply main_completes.
  - by rewrite Hmap, Hnone.
  - unfold attributed. by rewrite Hmap, Hnone.
  - apply country_column_attributed.
  - apply country_column_attributed.
  - exact Hmap.
  - intros E' Hsame Ha'. exists (completed_run E' file packages trace).
    assert (observed_lookup_set E' file packages = observed_lookup_set E file packages)
      as Hset by apply (same_except_lookup_set a), Hsame.
    split.
    + rewrite <- Hset. apply main_completes. fold (observed_lookup_set E' file packages).
      rewrite Hset. intros b Hb. destruct (decide (b = a)) as [->|Hne]; [done|].
      destruct Hsame as (_ & _ & _ & Hw). unfold whois_text. rewrite Hw by done.
      by apply Hall.
    + intros b Hne. rewrite !completed_mapping_lookup.
      change (addrs (completed_run E' file packages trace))
        with (observed_lookup_set E' file packages).
      change (addrs (completed_run E file packages trace))
        with (observed_lookup_set E file packages).
      by rewrite Hset, (same_except_resolved a E E' b Hsame Hne).
Qed.

(** The statement at [capture_mixed] with the lookups of [flaky], for
    1.1.1.1, whose record has no country. *)
Lemma missing_country_is_contained_witness :
  ∃ r, run_main flaky capture_mixed None true
       = (inr r, elements (observed_lookup_set flaky capture_mixed None))
     ∧ mapping r !! ipv4 1 1 1 1 = Some None
     ∧ attributed (mapping r) (ipv4 1 1 1 1) = "LOCAL".
Proof.
  destruct (missing_country_is_contained flaky capture_mixed None true (ipv4 1 1 1 1))
    as (r & Hrun & Hnone & Hlocal & _).
  - intros b Hb%elem_of_elements. revert b Hb. apply Forall_forall.
    vm_compute. repeat constructor; by eexists.
  - apply (bool_decide_unpack _). vm_compute. exact I.
  - reflexivity.
  - exists r. split_and!; assumption.
Defined.

(** C4 (as stated) fails for a lookup that returns a non-zero code: the
    return code is never read, so the country line the process printed is
    used, and the address is counted under that country, not under LOCAL.
    It fails too for a lookup that cannot be started: the run ends with the
    exception. *)
Lemma nonzero_exit_is_not_a_failure :
  ipv4 8 8 8 8 ∈ observed_lookup_set flaky capture_mixed None
  ∧ lookup_failed flaky (ipv4 8 8 8 8)
  ∧ (∃ r, fst (run_main flaky capture_mixed None false) = inr r
        ∧ mapping r !! ipv4 8 8 8 8 = Some (Some "US")
        ∧ attributed (mapping r) (ipv4 8 8 8 8) = "US"
        ∧ src_country r = ["LOCAL"; "LOCAL"; "US"; "US"])
  ∧ lookup_failed flaky (ipv4 9 9 9 9)
  ∧ fst (run_main flaky [ip_packet (ipv4 9 9 9 9) (ipv4 10 0 0 1)] None false)
    = inl OSError.
Proof.
  split_and!.
  - apply (bool_decide_unpack _). vm_compute. exact I.
  - left. done.
  - eexists. split; [vm_compute; reflexivity|]. by vm_compute.
  - exact I.
  - by vm_compute.
Qed.

(** ** Deduplication *)

Lemma count_occ_NoDup_le (w : list N) a : NoDup w → count_occ N.eq_dec w a ≤ 1.
Proof.
  intros Hnd%NoDup_ListNoDup. exact (proj1 (List.NoDup_count_occ N.eq_dec w) Hnd a).
Qed.

Lemma count_occ_NoDup_one (w : list N) a :
  NoDup w → a ∈ w → count_occ N.eq_dec w a = 1.
Proof.
  intros Hnd%NoDup_ListNoDup Hin%list_elem_of_In.
  exact (proj1 (List.NoDup_count_occ' N.eq_dec w) Hnd a Hin).
Qed.

(** X15: in any run, raising or not, no address is looked up twice, and
    only addresses of the lookup set are looked up. *)
Lemma at_most_one_lookup_per_address E file packages trace a :
  count_occ N.eq_dec (run_main E file packages trace).2 a ≤ 1
  ∧ (a ∈ (run_main E file packages trace).2 → a ∈ observed_lookup_set E file packages).
Proof.
  unfold run_main, main, bind.
  destruct (pool_map_world E
              (elements (lookup_set E (addresses_of src (read_packets file packages))
                                      (addresses_of dst (read_packets file packages)))) [])
    as [k Hk].
  assert (∀ (w : list N) (X : gset N), w = take k (elements X) →
            count_occ N.eq_dec w a ≤ 1 ∧ (a ∈ w → a ∈ X)) as Hprefix.
  { intros w X ->. split.
    - apply count_occ_NoDup_le.
      apply (sublist_NoDup _ (elements X)); [apply NoDup_elements|apply sublist_take].
    - intros Ha. apply elem_of_elements.
      eapply elem_of_sublist; [exact Ha|apply sublist_take]. }
  destruct (pool_map _ _ _) as [[e|res] w]; simpl in *; by apply Hprefix.
Qed.

(** ** The packet cap *)

(** C10: a cap of 0 is not applied: the run is the one without the option
    and reads every packet of the file, where the capture reader asked for
    0 packets would return none. *)
Theorem zero_packages_reads_all (E : Env) (file : list Packet) (trace : bool) :
  main E file (Some 0%Z) trace = main E file None trace
  ∧ run_main E file (Some 0%Z) trace = run_main E file None trace
  ∧ read_packets file (Some 0%Z) = file
  ∧ read_packets file None = file
  ∧ rdpcap file 0 = [].
Proof. split_and!; reflexivity. Qed.

(** ** Counting *)

Lemma count_of_cons c x col :
  count_of c (x :: col) = (if decide (x = c) then 1 else 0) + count_of c col.
Proof. unfold count_of. rewrite filter_cons. by case_decide. Qed.

Lemma count_of_pos c col : c ∈ col ↔ 0 < count_of c col.
Proof.
  induction col as [|x col IH].
  - split; [by intros ?%elem_of_nil|by inversion 1].
  - rewrite count_of_cons, elem_of_cons, IH. case_decide as Hx.
    + split; [lia|]. intros _. by left.
    + split; [intros [->|?]; [done|lia]|]. intros ?. right. lia.
Qed.

Lemma sum_indicator (x : string) (d : list string) :
  NoDup d → x ∈ d → sum_list_with (λ c, if decide (x = c) then 1 else 0) d = 1.
Proof.
  induction 1 as [|y d Hy Hd IH]; [by intros ?%elem_of_nil|].
  intros Hin. simpl. case_decide as Hxy.
  - subst y. assert (sum_list_with (λ c, if decide (x = c) then 1 else 0) d = 0) as ->; [|done].
    clear IH Hin Hd. induction d as [|z d IH]; [done|]. simpl.
    rewrite decide_False by (intros ->; apply Hy; by left).
    rewrite IH; [done|]. intros ?. apply Hy. by right.
  - apply elem_of_cons in Hin as [?|Hin]; [done|]. by rewrite IH.
Qed.

Lemma sum_list_with_pointwise {A} (f g : A → nat) (l : list A) :
  (∀ x, f x = g x) → sum_list_with f l = sum_list_with g l.
Proof. intros Hfg. induction l as [|x l IH]; simpl; [done|]. by rewrite Hfg, IH. Qed.

Lemma sum_list_with_add {A} (f g : A → nat) (l : list A) :
  sum_list_with (λ x, f x + g x) l = sum_list_with f l + sum_list_with g l.
Proof. induction l as [|x l IH]; simpl; [done|]. rewrite IH. lia. Qed.

(** Over a duplicate-free list of values that covers the column, the
    counts add up to the length of the column. *)
Lemma sum_count_of (d col : list string) :
  NoDup d → (∀ x, x ∈ col → x ∈ d) →
  sum_list_with (λ c, count_of c col) d = length col.
Proof.
  intros Hd. induction col as [|x col IH]; intros Hcov.
  - clear Hd Hcov. induction d as [|c d IH]; [done|]. simpl. by rewrite IH.
  - rewrite (sum_list_with_pointwise _
               (λ c, (if decide (x = c) then 1 else 0) + count_of c col))
      by (intros; apply count_of_cons).
    rewrite sum_list_with_add, sum_indicator, IH; [done| |done|].
    + intros y Hy. apply Hcov. by right.
    + apply Hcov. by left.
Qed.

Lemma value_counts_Permutation col :
  value_counts col ≡ₚ map (λ c, (c, count_of c col)) (remove_dups col).
Proof. apply merge_sort_Permutation. Qed.

Lemma elem_of_value_counts col c k :
  (c, k) ∈ value_counts col ↔ c ∈ col ∧ k = count_of c col.
Proof.
  rewrite value_counts_Permutation, list_elem_of_fmap. split.
  - intros (c' & [= -> ->] & Hc). split; [|done].
    by apply (proj1 (elem_of_remove_dups col c')).
  - intros [Hc ->]. exists c. split; [done|]. by apply elem_of_remove_dups.
Qed.

Lemma value_counts_keys_NoDup col : NoDup (value_counts col).*1.
Proof.
  rewrite value_counts_Permutation.
  assert (∀ d : list string, (map (λ c, (c, count_of c col)) d).*1 = d) as ->.
  { induction d as [|c d IH]; [done|]. simpl. f_equal. exact IH. }
  apply NoDup_remove_dups.
Qed.

Lemma value_counts_total col : sum_list_with snd (value_counts col) = length col.
Proof.
  rewrite value_counts_Permutation.
  rewrite <- (sum_count_of (remove_dups col) col).
  - induction (remove_dups col) as [|c d IH]; simpl; [done|]. by rewrite IH.
  - apply NoDup_remove_dups.
  - intros x. apply elem_of_remove_dups.
Qed.

(** A column that holds one value only has one row. *)
Lemma value_counts_constant c col :
  col ≠ [] → (∀ x, x ∈ col → x = c) → value_counts col = [(c, length col)].
Proof.
  intros Hne Hall.
  assert (∀ k, (c, k) ∈ value_counts col → k = length col) as Hk.
  { intros k [_ ->]%elem_of_value_counts. unfold count_of.
    clear Hne. induction col as [|x col IH]; [done|].
    rewrite filter_cons, decide_True by (apply Hall; by left). simpl.
    rewrite IH; [done|]. intros y Hy. apply Hall. by right. }
  pose proof (value_counts_keys_NoDup col) as Hnd.
  pose proof (value_counts_total col) as Htot.
  assert (∀ r, r ∈ value_counts col → r = (c, length col)) as Hrows.
  { intros [c' k] Hr. pose proof Hr as [Hc' _]%elem_of_value_counts.
    apply Hall in Hc' as ->. by rewrite (Hk k Hr). }
  destruct (value_counts col) as [|r1 [|r2 rows]].
  - simpl in Htot. destruct col; done.
  - by rewrite (Hrows r1) by (by left).
  - exfalso. rewrite (Hrows r1), (Hrows r2) in Hnd by (by repeat constructor).
    simpl in Hnd. apply NoDup_cons in Hnd as [Hnd _]. apply Hnd. by left.
Qed.

(** ** Percentages *)

Lemma percentage_add a b n :
  (percentage (a + b) n == percentage a n + percentage b n)%Q.
Proof.
  unfold percentage. rewrite Nat2Z.inj_add, inject_Z_plus. unfold Qdiv. ring.
Qed.

Lemma percentage_zero n : (percentage 0 n == 0)%Q.
Proof. unfold percentage, Qdiv. simpl. ring. Qed.

Lemma percentage_all n : 0 < n → (percentage n n == 100)%Q.
Proof.
  intros Hn. unfold percentage. field.
  intros Heq. apply (Qeq_bool_neq (inject_Z (Z.of_nat n)) 0); [|exact Heq].
  unfold Qeq_bool, inject_Z. simpl. apply Z.eqb_neq. lia.
Qed.

Lemma Qsum_percentage (rows : list (string * nat)) n :
  (Qsum (map (λ r, percentage r.2 n) rows) == percentage (sum_list_with snd rows) n)%Q.
Proof.
  induction rows as [|r rows IH]; simpl.
  - symmetry. apply percentage_zero.
  - rewrite IH. symmetry. apply percentage_add.
Qed.

Lemma percentages_values col :
  (percentages col).*2 = map (λ r, percentage r.2 (length col)) (value_counts col).
Proof. unfold percentages. by rewrite <- list_fmap_compose. Qed.

Lemma elem_of_percentages col c p :
  (c, p) ∈ percentages col
  ↔ c ∈ col ∧ p = percentage (count_of c col) (length col).
Proof.
  unfold percentages. rewrite list_elem_of_fmap. split.
  - intros ([c' k] & [= -> ->] & [Hc ->]%elem_of_value_counts). done.
  - intros [Hc ->]. exists (c, count_of c col). split; [done|].
    by apply elem_of_value_counts.
Qed.

(** The rows of a non-empty column add up to 100. *)
Lemma Qsum_percentages col : col ≠ [] → (Qsum (percentages col).*2 == 100)%Q.
Proof.
  intros Hne. rewrite percentages_values, Qsum_percentage, value_counts_total.
  apply percentage_all. destruct col; [done|simpl; lia].
Qed.

(** ** Rounding *)

Lemma rint_close q : (Qabs (inject_Z (rint q) - q) <= 1 # 2)%Q.
Proof.
  unfold rint. pose proof (Qfloor_le q) as Hlo. pose proof (Qlt_floor q) as Hhi.
  rewrite inject_Z_plus in Hhi. change (inject_Z 1) with 1%Q in Hhi.
  apply Qabs_Qle_condition.
  destruct (Qcompare_spec (q - inject_Z (Qfloor q)) (1 # 2)) as [Heq|Hlt|Hgt].
  - destruct (Z.even (Qfloor q)); rewrite ?inject_Z_plus;
      change (inject_Z 1) with 1%Q; split; lra.
  - split; lra.
  - rewrite inject_Z_plus. change (inject_Z 1) with 1%Q. split; lra.
Qed.

Lemma rint_comp q q' : (q == q')%Q → rint q = rint q'.
Proof.
  intros Heq. unfold rint. rewrite (Qfloor_comp _ _ Heq).
  assert (q - inject_Z (Qfloor q') == q' - inject_Z (Qfloor q'))%Q as Hsub
    by (by rewrite Heq).
  by rewrite (Qcompare_comp _ _ Hsub _ _ (Qeq_refl (1 # 2))).
Qed.

Lemma round2_comp p p' : (p == p')%Q → round2 p = round2 p'.
Proof.
  intros Heq. unfold round2. rewrite (rint_comp (p * 100) (p' * 100)); [done|].
  by rewrite Heq.
Qed.

(** A displayed percentage is within half a hundredth of the exact one. *)
Lemma round2_close p : (Qabs (round2 p - p) <= 1 # 200)%Q.
Proof.
  unfold round2. pose proof (rint_close (p * 100)) as H.
  apply Qabs_Qle_condition in H as [Hlo Hhi]. apply Qabs_Qle_condition.
  unfold Qdiv. change (/ 100)%Q with (1 # 100)%Q.
  split; lra.
Qed.

Lemma Qsum_round2_close (ps : list Q) :
  (Qabs (Qsum (map round2 ps) - Qsum ps)
   <= inject_Z (Z.of_nat (length ps)) * (1 # 200))%Q.
Proof.
  induction ps as [|p ps IH].
  - by vm_compute.
  - cbn [map Qsum foldr length]. fold (Qsum (map round2 ps)). fold (Qsum ps).
    rewrite Nat2Z.inj_succ, <- Z.add_1_r, inject_Z_plus.
    change (inject_Z 1) with 1%Q.
    pose proof (round2_close p) as Hp.
    apply Qabs_Qle_condition in Hp as [Hp1 Hp2].
    apply Qabs_Qle_condition in IH as [IH1 IH2].
    apply Qabs_Qle_condition. split; lra.
Qed.

Lemma table_rows_values perc : (table_rows perc).*2 = map round2 perc.*2.
Proof.
  unfold table_rows. rewrite <- !list_fmap_compose. done.
Qed.

Lemma table_rows_length perc : length (table_rows perc) = length perc.
Proof. unfold table_rows. apply length_map. Qed.

(** ** The distribution of a run *)

Lemma addresses_of_pairs (field : IPLayer → Address) packets :
  addresses_of field packets = map field (pairs packets).
Proof.
  unfold addresses_of, pairs.
  induction packets as [|[[l|]] packets IH]; simpl; [done|f_equal; exact IH|exact IH].
Qed.

Lemma pairs_length packets : length (pairs packets) ≤ length packets.
Proof.
  unfold pairs. induction packets as [|[[l|]] packets IH]; [done|..].
  - change (S (length (omap ip_layer packets)) ≤ S (length packets)). lia.
  - change (length (omap ip_layer packets) ≤ S (length packets)). lia.
Qed.

Lemma count_of_map {A} (g : A → string) (l : list A) c :
  count_of c (map g l) = length (filter (λ x, g x = c) l).
Proof.
  induction l as [|x l IH]; [done|].
  simpl map. rewrite count_of_cons, filter_cons, IH. by case_decide.
Qed.

Lemma country_column_count m (role : IPLayer → Address) packets c :
  count_of c (country_column m (addresses_of role packets))
  = attributed_pairs m role c packets.
Proof.
  rewrite country_column_attributed, addresses_of_pairs, map_map.
  apply (count_of_map (λ pr, attributed m (role pr))).
Qed.

Lemma percentages_keys col : (percentages col).*1 = (value_counts col).*1.
Proof. unfold percentages. by rewrite <- list_fmap_compose. Qed.

(** The rows of one role, for any mapping. *)
Lemma role_percentages m (role : IPLayer → Address) packets c p :
  (c, p) ∈ percentages (country_column m (addresses_of role packets))
  ↔ 0 < attributed_pairs m role c packets
    ∧ p = percentage (attributed_pairs m role c packets) (length (pairs packets)).
Proof.
  rewrite elem_of_percentages, count_of_pos, country_column_count.
  rewrite country_column_attributed, length_map, addresses_of_pairs, length_map.
  done.
Qed.

(** The divisor is the number of address pairs, not the number of packets
    the run reports as extracted: on a capture that holds a frame without
    an IPv4 layer the only source is counted under LOCAL at 100 percent, one
    pair out of one, where the packet count of the run, 2, would give 50. *)
Lemma percentage_not_over_packets :
  ∃ r p, fst (run_main all_us capture_ip_and_arp None false) = inr r
     ∧ length (packets r) = 2
     ∧ attributed_pairs (mapping r) src "LOCAL" (packets r) = 1
     ∧ src_cc_perc r = [("LOCAL", p)]
     ∧ (p == 100)%Q
     ∧ ¬ (p == inject_Z 1 / inject_Z (Z.of_nat (length (packets r))) * 100)%Q.
Proof.
  eexists _, _. split; [vm_compute; reflexivity|].
  split_and!; [by vm_compute..|]. by vm_compute.
Qed.

(** ** Captures without an eligible address *)

Lemma local_column (col : list Address) :
  col ≠ [] →
  percentages (country_column ∅ col)
  = [("LOCAL", percentage (length col) (length col))].
Proof.
  intros Hne. rewrite country_column_attributed. unfold percentages.
  rewrite (value_counts_constant "LOCAL").
  - simpl. by rewrite length_map.
  - by destruct col.
  - intros x (a & -> & _)%list_elem_of_fmap. unfold attributed.
    by rewrite lookup_empty.
Qed.

(** C9 (as amended): when a capture has packets with an IPv4 layer and none
    of their addresses is eligible, no lookup is made, the run completes
    with an empty mapping, and the report of each role is the single row
    LOCAL at 100 percent. *)
Theorem no_eligible_address_all_local (E : Env) (file : list Packet)
    (packages : option Z) (trace : bool) :
  observed_lookup_set E file packages = ∅ →
  pairs (read_packets file packages) ≠ [] →
  ∃ r p q, run_main E file packages trace = (inr r, [])
     ∧ mapping r = ∅
     ∧ src_cc_perc r = [("LOCAL", p)] ∧ dest_cc_perc r = [("LOCAL", p)]
     ∧ (p == 100)%Q
     ∧ inc r = [("LOCAL", q)] ∧ outc r = [("LOCAL", q)]
     ∧ (q == 100)%Q.
Proof.
  intros Hempty Hne.
  set (n := length (pairs (read_packets file packages))).
  assert (0 < n) as Hn.
  { unfold n. destruct (pairs (read_packets file packages)); [done|simpl; lia]. }
  assert (∀ role : IPLayer → Address,
            percentages (country_column ∅ (addresses_of role (read_packets file packages)))
            = [("LOCAL", percentage n n)]) as Hrole.
  { intros role. rewrite local_column.
    - by rewrite addresses_of_pairs, length_map.
    - rewrite addresses_of_pairs. by destruct (pairs (read_packets file packages)). }
  exists (completed_run E file packages trace), (percentage n n),
         (round2 (percentage n n)).
  assert (mapping (completed_run E file packages trace) = ∅) as Hmap.
  { unfold completed_run. fold (observed_lookup_set E file packages).
    rewrite Hempty, elements_empty. done. }
  assert (src_cc_perc (completed_run E file packages trace) = [("LOCAL", percentage n n)])
    as Hsrc.
  { change (src_cc_perc (completed_run E file packages trace))
      with (percentages (country_column (mapping (completed_run E file packages trace))
                           (addresses_of src (read_packets file packages)))).
    rewrite Hmap. apply Hrole. }
  assert (dest_cc_perc (completed_run E file packages trace) = [("LOCAL", percentage n n)])
    as Hdst.
  { change (dest_cc_perc (completed_run E file packages trace))
      with (percentages (country_column (mapping (completed_run E file packages trace))
                           (addresses_of dst (read_packets file packages)))).
    rewrite Hmap. apply Hrole. }
  split_and!.
  - rewrite main_completes.
    + fold (observed_lookup_set E file packages). by rewrite Hempty, elements_empty.
    + fold (observed_lookup_set E file packages). rewrite Hempty.
      by intros a ?%not_elem_of_empty.
  - exact Hmap.
  - exact Hsrc.
  - exact Hdst.
  - by apply percentage_all.
  - change (inc (completed_run E file packages trace))
      with (table_rows (src_cc_perc (completed_run E file packages trace))).
    by rewrite Hsrc.
  - change (outc (completed_run E file packages trace))
      with (table_rows (dest_cc_perc (completed_run E file packages trace))).
    by rewrite Hdst.
  - rewrite (round2_comp _ 100) by (by apply percentage_all). by vm_compute.
Qed.

(** The statement at [capture_local]. *)
Lemma no_eligible_address_all_local_witness :
  ∃ r p q, run_main all_us capture_local None false = (inr r, [])
     ∧ src_cc_perc r = [("LOCAL", p)] ∧ (p == 100)%Q
     ∧ inc r = [("LOCAL", q)] ∧ (q == 100)%Q.
Proof.
  destruct (no_eligible_address_all_local all_us capture_local None false)
    as (r & p & q & Hrun & _ & Hsrc & _ & Hp & Hinc & _ & Hq).
  - by vm_compute.
  - by vm_compute.
  - exists r, p, q. split_and!; assumption.
Defined.

(** C9 (as stated) fails on a capture that has no IPv4 packet at all: it
    yields no eligible address, and the report of either role has no row,
    not the row LOCAL. *)
Lemma no_ip_packet_no_local_row :
  observed_lookup_set all_us capture_arp_only None = ∅
  ∧ ∃ r, run_main all_us capture_arp_only None false = (inr r, [])
       ∧ inc r = [] ∧ outc r = []
       ∧ (∀ q, inc r ≠ [("LOCAL", q)]) ∧ (∀ q, outc r ≠ [("LOCAL", q)]).
Proof.
  split; [by vm_compute|].
  eexists. split; [vm_compute; reflexivity|]. split_and!; by vm_compute.
Qed.

(** ** When a run completes *)

(** X14: a run returns exactly when every lookup of its set starts and
    prints text that decodes; the hypothesis of the statements above is no
    more than that, and one lookup that cannot be started, or whose output
    does not decode, ends the run without a report. *)
Lemma main_completes_iff E file packages trace :
  (∃ r w, run_main E file packages trace = (inr r, w))
  ↔ ∀ b, b ∈ observed_lookup_set E file packages → is_Some (whois_text E b).
Proof.
  split.
  - intros (r & w & Hrun) b Hb.
    destruct (whois_text E b) eqn:Hnone; [by eexists|].
    destruct (main_raises E file packages trace b Hb Hnone) as (e & w' & Hraise).
    congruence.
  - intros Hall. eexists _, _. by apply main_completes.
Qed.

(** ** Worked examples *)

Example country_of_output_arin :
  country_of_output ("NetRange: 8.8.8.0 - 8.8.8.255" +:+ NL +:+
                     "Country:        US" +:+ NL +:+ "City: Mountain View" +:+ NL)
  = Some "US".
Proof. reflexivity. Qed.

Example country_of_output_last_wins :
  country_of_output ("country: EU" +:+ NL +:+ "descr: x" +:+ NL +:+
                     "Country: NL" +:+ CR +:+ NL)
  = Some "NL".
Proof. reflexivity. Qed.

Example country_of_output_none :
  country_of_output ("% no entries found" +:+ NL) = None.
Proof. reflexivity. Qed.

(** The test is a prefix test: a longer field name passes it, an indented
    country line does not. *)
Example country_of_output_prefix_only :
  country_of_output ("CountryCode: AU" +:+ NL) = Some "AU"
  ∧ spec_country_of_output ("CountryCode: AU" +:+ NL) = None.
Proof. by vm_compute. Qed.

Example country_of_output_indented :
  country_of_output ("  country: US" +:+ NL) = None
  ∧ spec_country_of_output ("  country: US" +:+ NL) = Some "US".
Proof. by vm_compute. Qed.

(** Only the space cuts: after a tab the whole line comes back. *)
Example country_of_output_tab :
  country_of_output ("country:" +:+ TAB +:+ "US" +:+ NL)
  = Some ("country:" +:+ TAB +:+ "US").
Proof. reflexivity. Qed.

(** The boundary addresses of the specification: a private address is not
    looked up, a public one is, a multicast one is not although it counts
    as global. *)
Example eligibility_boundaries :
  is_eligible all_us (ipv4 10 0 0 1) = false
  ∧ is_eligible all_us (ipv4 8 8 8 8) = true
  ∧ is_global all_us (ipv4 224 0 0 1) = true
  ∧ is_eligible all_us (ipv4 224 0 0 1) = false.
Proof. by vm_compute. Qed.

Example capture_mixed_report :
  ∃ r, run_main all_us capture_mixed None true
       = (inr r, [ipv4 8 8 8 8; ipv4 1 1 1 1])
     ∧ av_cores r = 6%Z
     ∧ src_country r = ["US"; "LOCAL"; "US"; "US"]
     ∧ dest_country r = ["LOCAL"; "LOCAL"; "LOCAL"; "LOCAL"]
     ∧ inc r = [("US", 75.00%Q); ("LOCAL", 25.00%Q)]
     ∧ outc r = [("LOCAL", 100.00%Q)]
     ∧ tt r = Some [(ipv4 8 8 8 8, Some "US"); (ipv4 1 1 1 1, Some "US")].
Proof. eexists. split; [vm_compute; reflexivity|]. by vm_compute. Qed.

(** The cap of [--packages] applies when it is not 0. *)
Example packages_two :
  read_packets capture_mixed (Some 2%Z) = take 2 capture_mixed
  ∧ read_packets capture_mixed (Some 0%Z) = capture_mixed.
Proof. by vm_compute. Qed.

(** A lookup whose output is not UTF-8 ends the run. *)
Example undecodable_output_raises :
  (run_main (table_env (λ _, Some {| returncode := 0; stdout := NotUtf8 |}))
            capture_mixed None false).1
  = inl UnicodeDecodeError.
Proof. by vm_compute. Qed.

(** * Further properties of the script *)

(** ** The name shown for the capture *)

(** X1: the name shown for a capture is the part of the path after its last
    slash, the whole path when it has none, and it is the only such part:
    it holds no slash itself. *)
Theorem shown_file_name_iff (file name : string) :
  shown_file_name file = name
  ↔ PyStr.has_char SLASH name = false
    ∧ (file = name ∨ ∃ dir, file = dir +:+ String SLASH name).
Proof.
  unfold shown_file_name. split.
  - intros <-. apply PyStrFacts.last_split_spec.
  - intros [Hname [->|[dir ->]]].
    + by rewrite PyStrFacts.split_no_sep.
    + by apply PyStrFacts.last_split_after.
Qed.

(** ** What the parser returns *)

Lemma split_pieces_no_sep sep s piece :
  piece ∈ PyStr.split sep s → PyStr.has_char sep piece = false.
Proof.
  revert piece. induction s as [|c s IH]; intros piece; simpl.
  - by intros ->%list_elem_of_singleton.
  - pose proof (PyStrFacts.split_not_nil sep s) as Hne.
    destruct (Ascii.eqb c sep) eqn:Hc.
    + intros [->|Hin]%elem_of_cons; [done|]. by apply IH.
    + destruct (PyStr.split sep s) as [|w ws]; [done|].
      intros [->|Hin]%elem_of_cons.
      * simpl. rewrite Hc. apply IH. by left.
      * apply IH. by right.
Qed.

Lemma has_char_lstrip c s :
  PyStr.has_char c s = false → PyStr.has_char c (PyStr.lstrip s) = false.
Proof.
  induction s as [|d s IH]; simpl; [done|].
  intros [Hd Hs]%orb_false_iff. destruct (PyStr.is_whitespace d); [by apply IH|].
  simpl. by rewrite Hd, Hs.
Qed.

Lemma has_char_rstrip c s :
  PyStr.has_char c s = false → PyStr.has_char c (PyStr.rstrip s) = false.
Proof.
  induction s as [|d s IH]; simpl; [done|].
  intros [Hd Hs]%orb_false_iff. specialize (IH Hs).
  destruct (PyStr.rstrip s) as [|e r].
  - destruct (PyStr.is_whitespace d); [done|]. simpl. by rewrite Hd.
  - simpl in *. by rewrite Hd, IH.
Qed.

Lemma has_char_strip c s :
  PyStr.has_char c s = false → PyStr.has_char c (PyStr.strip s) = false.
Proof. intros H. by apply has_char_lstrip, has_char_rstrip. Qed.

Lemma rstrip_rstrip s : PyStr.rstrip (PyStr.rstrip s) = PyStr.rstrip s.
Proof.
  induction s as [|c s IH]; simpl; [done|].
  destruct (PyStr.rstrip s) as [|d r] eqn:Hr.
  - destruct (PyStr.is_whitespace c) eqn:Hc; [done|]. simpl. by rewrite Hc.
  - simpl. simpl in IH. by rewrite IH.
Qed.

(** Removing blanks on the left of a string that ends with none leaves a
    string that ends with none. *)
Lemma rstrip_lstrip s :
  PyStr.rstrip s = s → PyStr.rstrip (PyStr.lstrip s) = PyStr.lstrip s.
Proof.
  induction s as [|c s IH]; simpl; [done|].
  destruct (PyStr.is_whitespace c) eqn:Hc.
  - destruct (PyStr.rstrip s) as [|d r] eqn:Hr; [done|].
    intros [= Hs]. apply IH. congruence.
  - intros Hs. simpl. by rewrite Hc.
Qed.

Lemma lstrip_lstrip s : PyStr.lstrip (PyStr.lstrip s) = PyStr.lstrip s.
Proof.
  induction s as [|c s IH]; simpl; [done|].
  destruct (PyStr.is_whitespace c) eqn:Hc; [done|]. simpl. by rewrite Hc.
Qed.

Lemma strip_strip s : PyStr.strip (PyStr.strip s) = PyStr.strip s.
Proof.
  unfold PyStr.strip. rewrite rstrip_lstrip by apply rstrip_rstrip.
  apply lstrip_lstrip.
Qed.

(** X2: a country returned by the parser holds no space and no line feed,
    and it has no blank character at either end. *)
Theorem country_has_no_space (text c : string) :
  country_of_output text = Some c →
  PyStr.has_char SP c = false
  ∧ PyStr.has_char LF c = false
  ∧ PyStr.strip c = c.
Proof.
  unfold country_of_output.
  destruct (filter_last_spec is_country_line (PyStr.split LF text) "")
    as [[-> _]|(b & line & a & Hsplit & _ & _ & Hne & Hlast)]; [done|].
  unfold PyStr.last_item at 2. rewrite Hlast.
  destruct (List.filter is_country_line (PyStr.split LF text)); [done|].
  intros [= <-].
  assert (PyStr.has_char LF line = false) as Hline.
  { apply (split_pieces_no_sep LF text). rewrite Hsplit, elem_of_app. right. by left. }
  destruct (PyStrFacts.last_split_spec SP line) as [Hsp Hshape].
  remember (PyStr.last_item (PyStr.split SP line)) as tail eqn:Htail. clear Htail.
  assert (PyStr.has_char LF tail = false) as Hlf.
  { destruct Hshape as [->|[pre ->]]; [done|].
    rewrite PyStrFacts.has_char_app in Hline.
    apply orb_false_iff in Hline as [_ Hline]. exact Hline. }
  split_and!; [by apply has_char_strip..|apply strip_strip].
Qed.

(** The statement at a record whose country line ends with a carriage
    return. *)
Lemma country_has_no_space_witness :
  PyStr.has_char SP "US" = false ∧ PyStr.has_char LF "US" = false
  ∧ PyStr.strip "US" = "US".
Proof.
  apply (country_has_no_space ("descr: Example Net" +:+ NL +:+ "Country:   US" +:+ CR +:+ NL)).
  reflexivity.
Defined.

(** ** Lines added to an output *)

Lemma split_app_eq sep pre t :
  PyStr.split sep (pre +:+ String sep t) = PyStr.split sep pre ++ PyStr.split sep t.
Proof.
  induction pre as [|c pre IH].
  - rewrite PyStrFacts.app_nil. simpl. by rewrite Ascii.eqb_refl.
  - rewrite PyStrFacts.app_cons. simpl. rewrite IH.
    pose proof (PyStrFacts.split_not_nil sep pre) as Hne.
    destruct (Ascii.eqb c sep); [done|].
    by destruct (PyStr.split sep pre).
Qed.

(** X3: a line added at the end of an output decides the country when it
    is a country line, and changes nothing when it is not: the last
    country line wins, whatever comes before it. *)
Theorem country_of_output_add_line (text line : string) :
  PyStr.has_char LF line = false →
  country_of_output (text +:+ String LF line)
  = if is_country_line line
    then Some (PyStr.strip (PyStr.last_item (PyStr.split SP line)))
    else country_of_output text.
Proof.
  intros Hline. unfold country_of_output.
  rewrite split_app_eq, (PyStrFacts.split_no_sep LF line Hline), List.filter_app.
  simpl. destruct (is_country_line line).
  - unfold PyStr.last_item at 2. rewrite List.last_last.
    by destruct (List.filter is_country_line (PyStr.split LF text)).
  - by rewrite app_nil_r.
Qed.

(** The statement for a record of the United States followed by the line
    of a more specific allocation. *)
Lemma country_of_output_add_line_witness :
  country_of_output (("Country: US" +:+ NL +:+ "descr: reassigned") +:+ String LF "country: NL")
  = Some "NL".
Proof.
  rewrite (country_of_output_add_line ("Country: US" +:+ NL +:+ "descr: reassigned")
             "country: NL"); reflexivity.
Defined.

(** ** Line endings *)

Lemma prefix_snoc p x c :
  PyStr.has_char c p = false →
  String.prefix p (x +:+ String c "") = String.prefix p x.
Proof.
  revert x. induction p as [|a p IH]; intros x Hp.
  - by destruct x.
  - simpl in Hp. apply orb_false_iff in Hp as [Ha Hp].
    destruct x as [|b x].
    + rewrite PyStrFacts.app_nil. simpl.
      destruct (ascii_dec a c) as [->|_]; [by rewrite Ascii.eqb_refl in Ha|done].
    + rewrite PyStrFacts.app_cons. simpl. destruct (ascii_dec a b); [by apply IH|done].
Qed.

Lemma is_country_line_cr line : is_country_line (line +:+ CR) = is_country_line line.
Proof.
  unfold is_country_line, PyStr.startswith. rewrite PyStrFacts.lower_app.
  by apply prefix_snoc.
Qed.

(** A character that is not the separator, added at the end, goes to the
    last piece. *)
Lemma split_snoc sep s c :
  Ascii.eqb c sep = false →
  ∃ init t, PyStr.split sep s = init ++ [t]
            ∧ PyStr.split sep (s +:+ String c "") = init ++ [t +:+ String c ""].
Proof.
  intros Hc. induction s as [|d s (init & t & Hs & Hsc)].
  - exists [], "". rewrite PyStrFacts.app_nil. simpl. by rewrite Hc.
  - rewrite PyStrFacts.app_cons. simpl. rewrite Hs, Hsc.
    destruct (Ascii.eqb d sep).
    + by exists ("" :: init), t.
    + destruct init as [|w init].
      * by exists [], (String d t).
      * by exists (String d w :: init), t.
Qed.

Lemma rstrip_app_whitespace t w :
  PyStr.all_whitespace w = true → PyStr.rstrip (t +:+ w) = PyStr.rstrip t.
Proof.
  intros Hw. induction t as [|c t IH].
  - rewrite PyStrFacts.app_nil. by apply PyStrFacts.rstrip_all_whitespace.
  - rewrite PyStrFacts.app_cons. simpl. by rewrite IH.
Qed.

Lemma extracted_cr line :
  PyStr.strip (PyStr.last_item (PyStr.split SP (line +:+ CR)))
  = PyStr.strip (PyStr.last_item (PyStr.split SP line)).
Proof.
  destruct (split_snoc SP line (Ascii.ascii_of_nat 13)) as (init & t & Hs & Hsc); [done|].
  unfold CR. rewrite Hs, Hsc, !PyStrFacts.last_item_snoc.
  unfold PyStr.strip. by rewrite rstrip_app_whitespace.
Qed.

Lemma crlf_lines text :
  Forall2 same_line (PyStr.split LF text) (PyStr.split LF (crlf text)).
Proof.
  induction text as [|c text IH]; simpl.
  - repeat constructor.
  - destruct (Ascii.eqb c LF) eqn:Hc.
    + simpl. constructor; [by right|]. exact IH.
    + simpl. rewrite Hc.
      pose proof (PyStrFacts.split_not_nil LF text) as Hne.
      destruct (PyStr.split LF text) as [|w ws]; [done|].
      inversion IH as [|? w' ? ws' Hw Hws Heq1 Heq2]; subst.
      constructor; [|done].
      destruct Hw as [-> | ->]; [by left|by right].
Qed.

Lemma same_line_filter (l l' : list string) :
  Forall2 same_line l l' →
  Forall2 same_line (List.filter is_country_line l) (List.filter is_country_line l').
Proof.
  induction 1 as [|x y l l' Hxy Hl IH]; simpl; [constructor|].
  assert (is_country_line y = is_country_line x) as ->.
  { destruct Hxy as [-> | ->]; [done|apply is_country_line_cr]. }
  destruct (is_country_line x); [by constructor|done].
Qed.

Lemma same_line_last (l l' : list string) :
  Forall2 same_line l l' → l ≠ [] →
  same_line (List.last l "") (List.last l' "").
Proof.
  induction 1 as [|x y l l' Hxy Hl IH]; [done|]. intros _.
  destruct Hl as [|x2 y2 l l' Hxy2 Hl]; [done|].
  apply IH. done.
Qed.

(** X4: the parser returns the same country for an output whose lines end
    with a carriage return and a line feed as for the output whose lines
    end with the line feed alone. *)
Theorem country_of_output_crlf (text : string) :
  country_of_output (crlf text) = country_of_output text.
Proof.
  unfold country_of_output.
  pose proof (same_line_filter _ _ (crlf_lines text)) as Hfilter.
  pose proof (same_line_last _ _ Hfilter) as Hlast.
  destruct Hfilter as [|x y l l' Hxy Hl]; [done|].
  f_equal. unfold PyStr.last_item at 2 4.
  destruct (Hlast ltac:(done)) as [-> | ->]; [done|].
  apply extracted_cr.
Qed.

(** ** The two columns of the frame *)

Lemma zip_map {A B C} (f : A → B) (g : A → C) (l : list A) :
  zip (map f l) (map g l) = map (λ x, (f x, g x)) l.
Proof. induction l as [|x l IH]; simpl; [done|]. by rewrite IH. Qed.

Lemma pairs_filter packets :
  length (pairs packets) = length (filter (λ p, is_Some (ip_layer p)) packets).
Proof.
  unfold pairs. induction packets as [|[[l|]] packets IH]; [done|..].
  - rewrite filter_cons_True by (by eexists).
    change (S (length (omap ip_layer packets))
            = S (length (filter (λ p, is_Some (ip_layer p)) packets))).
    by rewrite IH.
  - rewrite filter_cons_False by (by intros [? ?]). exact IH.
Qed.

(** X5: the source and the destination column have the same length, the
    number of packets that have an IPv4 layer, and the entries of a row
    are the two addresses of one packet, in the order of the capture: the
    packets without an IPv4 layer are left out of both. *)
Theorem columns_aligned (packets : list Packet) :
  length (addresses_of src packets) = length (addresses_of dst packets)
  ∧ length (addresses_of src packets)
    = length (filter (λ p, is_Some (ip_layer p)) packets)
  ∧ zip (addresses_of src packets) (addresses_of dst packets)
    = map (λ l, (src l, dst l)) (pairs packets)
  ∧ ∀ packets', pairs (packets ++ packets') = pairs packets ++ pairs packets'.
Proof.
  rewrite !addresses_of_pairs, !length_map. split_and!.
  - done.
  - apply pairs_filter.
  - apply zip_map.
  - intros packets'. unfold pairs. apply omap_app.
Qed.

(** ** The size of the lookup set *)

(** X6: the number of addresses looked up, the count the script prints as
    processed, is at most the number of source entries plus the number of
    destination entries, that is twice the number of IPv4 packets. *)
Theorem lookup_set_size (E : Env) (file : list Packet) (packages : option Z) :
  size (observed_lookup_set E file packages)
  ≤ 2 * length (pairs (read_packets file packages)).
Proof.
  unfold observed_lookup_set, lookup_set.
  set (l := valid_addresses E _ ++ valid_addresses E _).
  assert (size (list_to_set l : gset N) ≤ length l) as Hsize.
  { apply submseteq_length, NoDup_submseteq; [apply NoDup_elements|].
    intros x Hx%elem_of_elements. by apply elem_of_list_to_set in Hx. }
  etrans; [exact Hsize|]. unfold l.
  rewrite length_app, !valid_addresses_filter, !addresses_of_pairs.
  pose proof (List.filter_length_le (is_eligible E)
                (map src (pairs (read_packets file packages)))) as H1.
  pose proof (List.filter_length_le (is_eligible E)
                (map dst (pairs (read_packets file packages)))) as H2.
  rewrite length_map in H1, H2. lia.
Qed.

(** ** Captures without an IPv4 packet *)

(** X7: when no packet read from the capture has an IPv4 layer, the empty
    capture included, the run completes whatever the lookups would do,
    starts no process, and prints two tables without a row. *)
Theorem no_ip_packet_no_lookup (E : Env) (file : list Packet)
    (packages : option Z) (trace : bool) :
  pairs (read_packets file packages) = [] →
  ∃ r, run_main E file packages trace = (inr r, [])
     ∧ source r = [] ∧ dest r = []
     ∧ mapping r = ∅
     ∧ inc r = [] ∧ outc r = [].
Proof.
  intros Hnone.
  assert (addresses_of src (read_packets file packages) = []) as Hsrc
    by (by rewrite addresses_of_pairs, Hnone).
  assert (addresses_of dst (read_packets file packages) = []) as Hdst
    by (by rewrite addresses_of_pairs, Hnone).
  exists (completed_run E file packages trace).
  assert (observed_lookup_set E file packages = ∅) as Hset.
  { unfold observed_lookup_set. by rewrite Hsrc, Hdst. }
  split.
  - rewrite main_completes.
    + fold (observed_lookup_set E file packages). by rewrite Hset, elements_empty.
    + fold (observed_lookup_set E file packages). rewrite Hset.
      by intros a ?%not_elem_of_empty.
  - unfold completed_run. fold (observed_lookup_set E file packages).
    rewrite Hset, elements_empty, Hsrc, Hdst. done.
Qed.

(** The statement at a capture of two frames that are not IPv4, with
    lookups none of which could be started. *)
Lemma no_ip_packet_no_lookup_witness :
  ∃ r, run_main (table_env (λ _, None)) capture_arp_only None false = (inr r, [])
     ∧ inc r = [] ∧ outc r = [].
Proof.
  destruct (no_ip_packet_no_lookup (table_env (λ _, None)) capture_arp_only None false)
    as (r & Hrun & _ & _ & _ & Hinc & Houtc).
  - reflexivity.
  - exists r. split_and!; assumption.
Defined.

(** ** The country of a packet address *)

Lemma completed_attributed E file packages trace a :
  a ∈ source (completed_run E file packages trace)
  ∨ a ∈ dest (completed_run E file packages trace) →
  attributed (mapping (completed_run E file packages trace)) a
  = if is_eligible E a then default "LOCAL" (resolved E a) else "LOCAL".
Proof.
  intros Hobs. unfold attributed. rewrite completed_mapping_lookup.
  destruct (is_eligible E a) eqn:Hel.
  - rewrite decide_True; [done|]. by apply elem_of_lookup_set.
  - rewrite decide_False; [done|]. intros [_ ?]%elem_of_lookup_set. congruence.
Qed.

(** X8: in a run whose lookups all answer, an address that is not eligible
    is counted under LOCAL, and an eligible one under the country its own
    lookup resolved to, under LOCAL when the lookup found none; this holds
    row by row for both columns. *)
Theorem attribution_rule (E : Env) (file : list Packet)
    (packages : option Z) (trace : bool) :
  (∀ b, b ∈ observed_lookup_set E file packages → is_Some (whois_text E b)) →
  ∃ r w, run_main E file packages trace = (inr r, w)
     ∧ src_country r
       = map (λ a, if is_eligible E a then default "LOCAL" (resolved E a) else "LOCAL")
             (source r)
     ∧ dest_country r
       = map (λ a, if is_eligible E a then default "LOCAL" (resolved E a) else "LOCAL")
             (dest r).
Proof.
  intros Hall.
  exists (completed_run E file packages trace),
         (elements (observed_lookup_set E file packages)).
  split; [by apply main_completes|].
  split.
  - change (src_country (completed_run E file packages trace))
      with (country_column (mapping (completed_run E file packages trace))
              (source (completed_run E file packages trace))).
    rewrite country_column_attributed. apply List.map_ext_in.
    intros a Ha%list_elem_of_In. apply completed_attributed. by left.
  - change (dest_country (completed_run E file packages trace))
      with (country_column (mapping (completed_run E file packages trace))
              (dest (completed_run E file packages trace))).
    rewrite country_column_attributed. apply List.map_ext_in.
    intros a Ha%list_elem_of_In. apply completed_attributed. by right.
Qed.

(** The statement at [capture_mixed] with the lookups of [flaky]: 1.1.1.1,
    whose record has no country, and the private 10.0.0.5 are counted under
    LOCAL, 8.8.8.8 under US. *)
Lemma attribution_rule_witness :
  ∃ r w, run_main flaky capture_mixed None false = (inr r, w)
     ∧ src_country r = ["LOCAL"; "LOCAL"; "US"; "US"].
Proof.
  destruct (attribution_rule flaky capture_mixed None false) as (r & w & Hrun & Hsrc & _).
  - intros b Hb%elem_of_elements. revert b Hb. apply Forall_forall.
    vm_compute. repeat constructor; by eexists.
  - exists r, w. split; [exact Hrun|]. rewrite Hsrc.
    assert (r = completed_run flaky capture_mixed None false) as ->.
    { rewrite main_completes in Hrun; [congruence|].
      intros b Hb%elem_of_elements. revert b Hb. apply Forall_forall.
      vm_compute. repeat constructor; by eexists. }
    vm_compute. reflexivity.
Defined.

(** ** The trace table *)

(** X9: in a run whose lookups all answer, the trace table is printed only
    when asked for, and it then has one row for each address looked up, no
    address twice, with the country the lookup of that address resolved
    to. *)
Theorem trace_table_rows (E : Env) (file : list Packet)
    (packages : option Z) (trace : bool) :
  (∀ b, b ∈ observed_lookup_set E file packages → is_Some (whois_text E b)) →
  ∃ r w, run_main E file packages trace = (inr r, w)
     ∧ (trace = false → tt r = None)
     ∧ (trace = true →
        ∃ rows, tt r = Some rows
          ∧ NoDup rows.*1
          ∧ length rows = length w
          ∧ ∀ a v, (a, v) ∈ rows
                   ↔ a ∈ observed_lookup_set E file packages ∧ v = resolved E a).
Proof.
  intros Hall.
  exists (completed_run E file packages trace),
         (elements (observed_lookup_set E file packages)).
  split; [by apply main_completes|].
  split; [by intros ->|]. intros ->.
  exists (map_to_list (mapping (completed_run E file packages true))).
  split_and!.
  - done.
  - apply NoDup_fst_map_to_list.
  - rewrite length_map_to_list, <- size_dom.
    pose proof (completed_mapping_dom E file packages true) as Hdom. cbv zeta in Hdom.
    by rewrite Hdom.
  - intros a v. rewrite elem_of_map_to_list, completed_mapping_lookup.
    change (addrs (completed_run E file packages true))
      with (observed_lookup_set E file packages).
    case_decide as Hin.
    + split; [by intros [= <-]|by intros [_ ->]].
    + split; [done|by intros [? _]].
Qed.

(** The statement at [capture_mixed], with and without the flag. *)
Lemma trace_table_rows_witness :
  (∃ r w, run_main all_us capture_mixed None true = (inr r, w)
      ∧ ∃ rows, tt r = Some rows ∧ length rows = 2)
  ∧ ∃ r w, run_main all_us capture_mixed None false = (inr r, w) ∧ tt r = None.
Proof.
  split.
  - destruct (trace_table_rows all_us capture_mixed None true)
      as (r & w & Hrun & _ & Hrows); [intros b _; by eexists|].
    destruct (Hrows eq_refl) as (rows & Htt & _ & Hlen & _).
    exists r, w. split; [exact Hrun|]. exists rows. split; [exact Htt|].
    rewrite Hlen.
    assert (w = elements (observed_lookup_set all_us capture_mixed None)) as ->.
    { rewrite main_completes in Hrun by (intros b _; by eexists).
      unfold observed_lookup_set. congruence. }
    vm_compute. reflexivity.
  - destruct (trace_table_rows all_us capture_mixed None false)
      as (r & w & Hrun & Hnone & _); [intros b _; by eexists|].
    exists r, w. split; [exact Hrun|]. by apply Hnone.
Defined.

(** ** The rows of a table *)

Lemma count_of_le c col : count_of c col ≤ length col.
Proof. unfold count_of. apply length_filter. Qed.

(** X10: every row of a table has a percentage above 0 and of at most
    100: a country that no packet is counted under has no row. *)
Theorem percentage_bounds (col : list string) (c : string) (p : Q) :
  (c, p) ∈ percentages col → (0 < p)%Q ∧ (p <= 100)%Q.
Proof.
  intros [Hc ->]%elem_of_percentages.
  apply count_of_pos in Hc. pose proof (count_of_le c col) as Hle.
  unfold percentage.
  set (k := count_of c col) in *. set (n := length col) in *.
  assert (0 < inject_Z (Z.of_nat n))%Q as Hn.
  { change 0%Q with (inject_Z 0). rewrite <- Zlt_Qlt. lia. }
  assert (0 < inject_Z (Z.of_nat k) / inject_Z (Z.of_nat n))%Q as Hlo.
  { apply Qlt_shift_div_l; [exact Hn|]. rewrite Qmult_0_l.
    change 0%Q with (inject_Z 0). rewrite <- Zlt_Qlt. lia. }
  assert (inject_Z (Z.of_nat k) / inject_Z (Z.of_nat n) <= 1)%Q as Hhi.
  { apply Qle_shift_div_r; [exact Hn|]. rewrite Qmult_1_l.
    rewrite <- Zle_Qle. lia. }
  split; lra.
Qed.

(** The statement at a column of four entries, three of them US. *)
Lemma percentage_bounds_witness :
  (0 < percentage 3 4)%Q ∧ (percentage 3 4 <= 100)%Q.
Proof.
  apply (percentage_bounds ["US"; "LOCAL"; "US"; "US"] "US").
  apply elem_of_percentages. split; [by left|reflexivity].
Defined.

Lemma percentages_length col : length (percentages col) = length (remove_dups col).
Proof.
  unfold percentages. rewrite length_map, value_counts_Permutation. apply length_map.
Qed.

(** X11: a table has at most one row more than there are addresses in the
    mapping, the row LOCAL, and at most as many rows as the column has
    entries. *)
Theorem table_rows_bound (m : gmap N (option string)) (col : list Address) :
  length (table_rows (percentages (country_column m col))) ≤ S (size m)
  ∧ length (table_rows (percentages (country_column m col))) ≤ length col.
Proof.
  rewrite table_rows_length, percentages_length, country_column_attributed.
  split.
  - rewrite <- (length_map_to_list m).
    rewrite <- (length_map (λ kv : N * option string, default "LOCAL" kv.2) (map_to_list m)).
    change (length (remove_dups (map (attributed m) col))
            ≤ length ("LOCAL" :: map (λ kv : N * option string, default "LOCAL" kv.2)
                                    (map_to_list m))).
    apply submseteq_length, NoDup_submseteq; [apply NoDup_remove_dups|].
    intros x Hx. apply (proj1 (elem_of_remove_dups _ _)) in Hx.
    apply list_elem_of_fmap in Hx as (a & -> & _). unfold attributed.
    destruct (m !! a) as [v|] eqn:Ha; [|by left].
    right. apply list_elem_of_fmap. exists (a, v). split; [done|].
    by apply elem_of_map_to_list.
  - rewrite <- (length_map (attributed m) col).
    apply submseteq_length, NoDup_submseteq; [apply NoDup_remove_dups|].
    intros x Hx. by apply (proj1 (elem_of_remove_dups _ _)) in Hx.
Qed.

Lemma percentage_mono k k' n : k ≤ k' → (percentage k n <= percentage k' n)%Q.
Proof.
  intros Hk. unfold percentage, Qdiv.
  assert (0 <= / inject_Z (Z.of_nat n))%Q as Hinv.
  { apply Qinv_le_0_compat. change 0%Q with (inject_Z 0). rewrite <- Zle_Qle. lia. }
  assert (inject_Z (Z.of_nat k) <= inject_Z (Z.of_nat k'))%Q as Hle
    by (rewrite <- Zle_Qle; lia).
  apply Qmult_le_compat_r; [|done].
  by apply Qmult_le_compat_r.
Qed.

(** X12: the rows of a table come in the order of [value_counts], the most
    frequent country first: no row has a larger percentage than a row above
    it, and the table shows the countries in that order. *)
Theorem rows_most_frequent_first (col : list string) :
  StronglySorted (λ r1 r2 : string * Q, (r2.2 <= r1.2)%Q) (percentages col)
  ∧ (table_rows (percentages col)).*1 = (percentages col).*1.
Proof.
  split.
  - unfold percentages.
    apply (StronglySorted_fmap _ more_frequent).
    + intros r1 r2 Hr. simpl. by apply percentage_mono.
    + apply StronglySorted_merge_sort.
      * intros r1 r2 r3. unfold more_frequent. lia.
      * intros r1 r2. unfold more_frequent. lia.
  - unfold table_rows. by rewrite <- list_fmap_compose.
Qed.

(** ** The order of the packets *)

Lemma count_of_Permutation c col col' : col ≡ₚ col' → count_of c col = count_of c col'.
Proof. intros Hperm. unfold count_of. by rewrite Hperm. Qed.

Lemma remove_dups_Permutation (col col' : list string) :
  col ≡ₚ col' → remove_dups col ≡ₚ remove_dups col'.
Proof.
  intros Hperm. apply NoDup_Permutation; try apply NoDup_remove_dups.
  intros x. rewrite !elem_of_remove_dups. by rewrite Hperm.
Qed.

Lemma percentages_Permutation col col' :
  col ≡ₚ col' → percentages col ≡ₚ percentages col'.
Proof.
  intros Hperm. unfold percentages.
  rewrite (Permutation_length Hperm).
  apply fmap_Permutation.
  rewrite !value_counts_Permutation.
  rewrite (List.map_ext (λ c, (c, count_of c col)) (λ c, (c, count_of c col')))
    by (intros c; by rewrite (count_of_Permutation c col col' Hperm)).
  apply fmap_Permutation. by apply remove_dups_Permutation.
Qed.

Lemma lookup_set_Permutation E source source' dest dest' :
  source ≡ₚ source' → dest ≡ₚ dest' →
  lookup_set E source' dest' = lookup_set E source dest.
Proof.
  intros Hs Hd. apply set_eq. intros a. rewrite !elem_of_lookup_set.
  by rewrite Hs, Hd.
Qed.

(** X13: without a cap, the order of the packets in the capture does not
    matter: a capture with the same packets in another order gives the same
    lookups and the same mapping, and for each role the same rows, up to
    their order among themselves. *)
Theorem packet_order_irrelevant (E : Env) (file file' : list Packet) (trace : bool) :
  file ≡ₚ file' →
  (∀ b, b ∈ observed_lookup_set E file None → is_Some (whois_text E b)) →
  ∃ r r' w, run_main E file None trace = (inr r, w)
     ∧ run_main E file' None trace = (inr r', w)
     ∧ mapping r' = mapping r
     ∧ src_cc_perc r' ≡ₚ src_cc_perc r
     ∧ dest_cc_perc r' ≡ₚ dest_cc_perc r
     ∧ inc r' ≡ₚ inc r
     ∧ outc r' ≡ₚ outc r.
Proof.
  intros Hperm Hall.
  assert (∀ field : IPLayer → Address,
            addresses_of field file ≡ₚ addresses_of field file') as Hcol.
  { intros field. unfold addresses_of. by rewrite Hperm. }
  assert (observed_lookup_set E file' None = observed_lookup_set E file None) as Hset.
  { apply lookup_set_Permutation; apply Hcol. }
  assert (mapping (completed_run E file' None trace)
          = mapping (completed_run E file None trace)) as Hmap.
  { unfold completed_run. fold (observed_lookup_set E file' None).
    fold (observed_lookup_set E file None). by rewrite Hset. }
  assert (∀ field : IPLayer → Address,
            percentages (country_column (mapping (completed_run E file' None trace))
                           (addresses_of field file'))
            ≡ₚ percentages (country_column (mapping (completed_run E file None trace))
                              (addresses_of field file))) as Hperc.
  { intros field. rewrite Hmap. apply percentages_Permutation.
    rewrite !country_column_attributed. apply fmap_Permutation. symmetry. apply Hcol. }
  exists (completed_run E file None trace), (completed_run E file' None trace),
         (elements (observed_lookup_set E file None)).
  split_and!.
  - by apply main_completes.
  - rewrite <- Hset. apply main_completes.
    fold (observed_lookup_set E file' None). by rewrite Hset.
  - exact Hmap.
  - apply (Hperc src).
  - apply (Hperc dst).
  - apply fmap_Permutation, (Hperc src).
  - apply fmap_Permutation, (Hperc dst).
Qed.

(** The statement at [capture_mixed] and at the same frames in reverse. *)
Lemma packet_order_irrelevant_witness :
  ∃ r r' w, run_main all_us capture_mixed None false = (inr r, w)
     ∧ run_main all_us (reverse capture_mixed) None false = (inr r', w)
     ∧ inc r' ≡ₚ inc r.
Proof.
  destruct (packet_order_irrelevant all_us capture_mixed (reverse capture_mixed) false)
    as (r & r' & w & Hrun & Hrun' & _ & _ & _ & Hinc & _).
  - symmetry. apply reverse_Permutation.
  - intros b _. by eexists.
  - exists r, r', w. split_and!; assumption.
Defined.

(** ** A usual record *)

(** The statement about the last country line of an output, at a record
    whose lines end with a carriage return. *)
Lemma country_of_output_final_token_witness :
  country_of_output ("NetRange: x" +:+ NL +:+ "Country:        US" +:+ CR +:+ NL)
  = Some "US".
Proof.
  apply (country_of_output_final_token _ ["NetRange: x"] "Country:       " "US" CR [""]).
  - reflexivity.
  - reflexivity.
  - intros l ->%list_elem_of_singleton. reflexivity.
  - done.
  - reflexivity.
  - reflexivity.
  - reflexivity.
Defined.

(** * Statements in terms of the capture read *)

(** ** What a completed run has built *)

Lemma observed_iff packets a :
  a ∈ addresses_of src packets ∨ a ∈ addresses_of dst packets ↔ observed packets a.
Proof.
  rewrite !addresses_of_pairs, !list_elem_of_fmap. unfold observed. split.
  - intros [(pr & -> & Hpr)|(pr & -> & Hpr)]; exists pr; auto.
  - intros (pr & Hpr & [-> | ->]); [left|right]; by exists pr.
Qed.

Lemma elem_of_observed_lookup_set E file packages a :
  a ∈ observed_lookup_set E file packages
  ↔ observed (read_packets file packages) a ∧ is_eligible E a = true.
Proof. unfold observed_lookup_set. by rewrite elem_of_lookup_set, observed_iff. Qed.

Lemma completed_counted_under E file packages trace a :
  observed (read_packets file packages) a →
  attributed (mapping (completed_run E file packages trace)) a = counted_under E a.
Proof. intros Hobs%observed_iff. by apply completed_attributed. Qed.

Lemma completed_src_country E file packages trace :
  src_country (completed_run E file packages trace)
  = map (λ pr, counted_under E (src pr)) (pairs (read_packets file packages)).
Proof.
  change (src_country (completed_run E file packages trace))
    with (country_column (mapping (completed_run E file packages trace))
            (addresses_of src (read_packets file packages))).
  rewrite country_column_attributed, addresses_of_pairs, map_map.
  apply List.map_ext_in. intros pr Hpr%list_elem_of_In.
  apply completed_counted_under. exists pr. auto.
Qed.

Lemma completed_dest_country E file packages trace :
  dest_country (completed_run E file packages trace)
  = map (λ pr, counted_under E (dst pr)) (pairs (read_packets file packages)).
Proof.
  change (dest_country (completed_run E file packages trace))
    with (country_column (mapping (completed_run E file packages trace))
            (addresses_of dst (read_packets file packages))).
  rewrite country_column_attributed, addresses_of_pairs, map_map.
  apply List.map_ext_in. intros pr Hpr%list_elem_of_In.
  apply completed_counted_under. exists pr. auto.
Qed.

Lemma elem_of_f64_percentages col c p :
  (c, p) ∈ f64_percentages col
  ↔ c ∈ col ∧ p = f64_percentage (count_of c col) (length col).
Proof.
  unfold f64_percentages. rewrite list_elem_of_fmap. split.
  - intros ([c' k] & [= -> ->] & [Hc ->]%elem_of_value_counts). done.
  - intros [Hc ->]. exists (c, count_of c col). split; [done|].
    by apply elem_of_value_counts.
Qed.

Lemma f64_percentages_keys col : (f64_percentages col).*1 = (value_counts col).*1.
Proof. unfold f64_percentages. by rewrite <- list_fmap_compose. Qed.

(** The rows of one role of a completed run, from its column as a function
    of the packets. *)
Lemma role_f64_percentages E (role : IPLayer → Address) packets c p :
  (c, p) ∈ f64_percentages (map (λ pr, counted_under E (role pr)) (pairs packets))
  ↔ 0 < pairs_counted_under E role c packets
    ∧ p = f64_percentage (pairs_counted_under E role c packets) (length (pairs packets)).
Proof.
  rewrite elem_of_f64_percentages, count_of_pos, length_map.
  by rewrite (count_of_map (λ pr, counted_under E (role pr))).
Qed.

Lemma role_value_counts E (role : IPLayer → Address) packets c k :
  (c, k) ∈ value_counts (map (λ pr, counted_under E (role pr)) (pairs packets))
  ↔ 0 < k ∧ k = pairs_counted_under E role c packets.
Proof.
  rewrite elem_of_value_counts, count_of_pos.
  rewrite (count_of_map (λ pr, counted_under E (role pr))).
  unfold pairs_counted_under. split; [by intros [? ->]|by intros [? ->]].
Qed.

(** ** Percentages *)

(** C3 (as amended): in a run whose lookups all answer, the frame has one
    row for each packet read that has an IPv4 layer, and the series of a
    role has one row for each country some packet is counted under in that
    role, whose value is the binary64 result of the number of packets
    counted under that country in that role, divided by the number of
    packets with an IPv4 layer, resolved or not, and multiplied by 100. *)
Theorem percentage_of_counted_pairs (E : Env) (file : list Packet)
    (packages : option Z) (trace : bool) :
  (∀ b, b ∈ observed_lookup_set E file packages → is_Some (whois_text E b)) →
  ∃ r w, run_main E file packages trace = (inr r, w)
     ∧ length (src_country r)
       = length (filter (λ p, is_Some (ip_layer p)) (read_packets file packages))
     ∧ length (dest_country r)
       = length (filter (λ p, is_Some (ip_layer p)) (read_packets file packages))
     ∧ (∀ c p, (c, p) ∈ f64_percentages (src_country r)
               ↔ 0 < pairs_counted_under E src c (read_packets file packages)
                 ∧ p = f64_percentage
                         (pairs_counted_under E src c (read_packets file packages))
                         (length (filter (λ p, is_Some (ip_layer p))
                                    (read_packets file packages))))
     ∧ (∀ c p, (c, p) ∈ f64_percentages (dest_country r)
               ↔ 0 < pairs_counted_under E dst c (read_packets file packages)
                 ∧ p = f64_percentage
                         (pairs_counted_under E dst c (read_packets file packages))
                         (length (filter (λ p, is_Some (ip_layer p))
                                    (read_packets file packages))))
     ∧ NoDup (f64_percentages (src_country r)).*1
     ∧ NoDup (f64_percentages (dest_country r)).*1.
Proof.
  intros Hall.
  exists (completed_run E file packages trace),
         (elements (observed_lookup_set E file packages)).
  rewrite completed_src_country, completed_dest_country, <- pairs_filter.
  split_and!.
  - by apply main_completes.
  - apply length_map.
  - apply length_map.
  - intros c p. apply role_f64_percentages.
  - intros c p. apply role_f64_percentages.
  - rewrite f64_percentages_keys. apply value_counts_keys_NoDup.
  - rewrite f64_percentages_keys. apply value_counts_keys_NoDup.
Qed.

(** The statement at [capture_mixed]: three of the four packets with an
    IPv4 layer have a source in the United States, which gives 75, and the
    frame of another protocol is in neither number. *)
Lemma percentage_of_counted_pairs_witness :
  ∃ r w, run_main all_us capture_mixed None false = (inr r, w)
     ∧ length (src_country r) = 4
     ∧ ("US", f64_of_nat 75) ∈ f64_percentages (src_country r).
Proof.
  destruct (percentage_of_counted_pairs all_us capture_mixed None false)
    as (r & w & Hrun & Hlen & _ & Hsrc & _).
  - intros b _. by eexists.
  - exists r, w. split_and!; [exact Hrun|exact Hlen|].
    apply Hsrc. split; [vm_compute; lia|vm_compute; reflexivity].
Defined.

(** C3 (as stated) fails where the binary64 value is not the exact one:
    with 23 of 160 packets from the United States the exact percentage is
    14.375, which to 2 decimal places is 14.38, and the value the script
    computes lies strictly between 14.37 and 14.375, which to 2 decimal
    places is 14.37; its binary64 product with 100 lies strictly between
    1437 and 1437.5, so that rounding by scaling gives 14.37 as well. *)
Lemma f64_percentage_below_tie :
  ∃ r q, (run_main all_us capture_23_of_160 None false).1 = inr r
     ∧ length (pairs (packets r)) = 160
     ∧ pairs_counted_under all_us src "US" (packets r) = 23
     ∧ ("US", f64_percentage 23 160) ∈ f64_percentages (src_country r)
     ∧ f64_value (f64_percentage 23 160) = Some q
     ∧ (1437 # 100 < q)%Q ∧ (q < 14375 # 1000)%Q
     ∧ (round2 q == 1437 # 100)%Q
     ∧ PrimFloat.ltb (f64_of_nat 1437)
         (PrimFloat.mul (f64_percentage 23 160) (f64_of_nat 100)) = true
     ∧ PrimFloat.ltb (PrimFloat.mul (f64_percentage 23 160) (f64_of_nat 100))
         (PrimFloat.div (f64_of_nat 2875) (f64_of_nat 2)) = true
     ∧ (percentage 23 160 == 14375 # 1000)%Q
     ∧ (round2 (percentage 23 160) == 1438 # 100)%Q.
Proof.
  eexists _, _. split; [vm_compute; reflexivity|].
  split; [vm_compute; reflexivity|].
  split; [vm_compute; reflexivity|].
  split.
  { apply elem_of_f64_percentages. split.
    - apply list_elem_of_In. vm_compute. left. reflexivity.
    - vm_compute. reflexivity. }
  split; [vm_compute; reflexivity|].
  split_and!; by vm_compute.
Qed.

(** ** Deduplication *)

(** C6 (as amended): in a run that completes, that is when every lookup
    starts and its output decodes, the resolver is invoked exactly once for
    each address that is the source or the destination of some packet read
    and is eligible, however often it occurs, and for no other address; the
    number of invocations is the number of distinct eligible addresses. *)
Theorem one_lookup_per_distinct_address (E : Env) (file : list Packet)
    (packages : option Z) (trace : bool) :
  (∀ b, b ∈ observed_lookup_set E file packages → is_Some (whois_text E b)) →
  ∃ r w, run_main E file packages trace = (inr r, w)
     ∧ NoDup w
     ∧ (∀ a, a ∈ w ↔ observed (read_packets file packages) a ∧ is_eligible E a = true)
     ∧ (∀ a, observed (read_packets file packages) a → is_eligible E a = true →
             count_occ N.eq_dec w a = 1)
     ∧ (∀ a, count_occ N.eq_dec w a ≤ 1)
     ∧ length w = size (observed_lookup_set E file packages).
Proof.
  intros Hall.
  exists (completed_run E file packages trace),
         (elements (observed_lookup_set E file packages)).
  assert (∀ a, a ∈ elements (observed_lookup_set E file packages)
               ↔ observed (read_packets file packages) a ∧ is_eligible E a = true)
    as Hmem.
  { intros a. rewrite elem_of_elements. apply elem_of_observed_lookup_set. }
  split_and!.
  - by apply main_completes.
  - apply NoDup_elements.
  - exact Hmem.
  - intros a Hobs Hel. apply count_occ_NoDup_one; [apply NoDup_elements|].
    by apply Hmem.
  - intros a. apply count_occ_NoDup_le, NoDup_elements.
  - done.
Qed.

(** The statement at [capture_mixed]: 8.8.8.8 is the source of two packets
    and is looked up once, 10.0.0.5 is private and is not looked up. *)
Lemma one_lookup_per_distinct_address_witness :
  ∃ r w, run_main all_us capture_mixed None false = (inr r, w)
     ∧ count_occ N.eq_dec (addresses_of src capture_mixed) (ipv4 8 8 8 8) = 2
     ∧ count_occ N.eq_dec w (ipv4 8 8 8 8) = 1
     ∧ (ipv4 10 0 0 5 ∉ w)
     ∧ length w = 2.
Proof.
  destruct (one_lookup_per_distinct_address all_us capture_mixed None false)
    as (r & w & Hrun & _ & Hmem & Hone & _ & Hlen).
  - intros b _. by eexists.
  - exists r, w. split_and!.
    + exact Hrun.
    + reflexivity.
    + apply Hone; [|reflexivity].
      exists {| src := ipv4 8 8 8 8; dst := ipv4 10 0 0 1 |}.
      split; [|by left]. apply list_elem_of_In. vm_compute. tauto.
    + intros [_ Hel]%Hmem. vm_compute in Hel. discriminate.
    + rewrite Hlen. vm_compute. reflexivity.
Defined.

(** C6 (as stated) fails in a run that raises.  Without a [whois] program
    every call of the resolver raises; with two CPUs the nine addresses of
    [capture_nine] go to the pool in chunks of two, and the call that
    follows a raising one in its chunk is not made: fewer than nine
    invocations for nine distinct eligible addresses. *)
Lemma lookups_skipped_when_raising :
  size (observed_lookup_set no_whois capture_nine None) = 9
  ∧ pool_size (cpu_count no_whois) = 2%Z
  ∧ (run_main no_whois capture_nine None false).1 = inl OSError
  ∧ length (run_main no_whois capture_nine None false).2 < 9.
Proof. split_and!; vm_compute; (reflexivity || lia). Qed.

(** ** The domain of the mapping *)

(** C8: in a run that builds the mapping, that is when every lookup starts
    and its output decodes, the keys of the mapping are exactly the
    addresses that are the source or the destination of some packet read
    and are global and not multicast; each is bound to the result of its
    own lookup, and the trace table at the end of the run lists the same
    keys. *)
Theorem mapping_domain_is_lookup_set (E : Env) (file : list Packet)
    (packages : option Z) (trace : bool) :
  (∀ b, b ∈ observed_lookup_set E file packages → is_Some (whois_text E b)) →
  ∃ r w, run_main E file packages trace = (inr r, w)
     ∧ dom (mapping r) = observed_lookup_set E file packages
     ∧ (∀ a, a ∈ dom (mapping r)
             ↔ observed (read_packets file packages) a
               ∧ is_global E a && negb (is_multicast E a) = true)
     ∧ (∀ a, a ∈ dom (mapping r) → mapping r !! a = Some (resolved E a))
     ∧ size (mapping r) = size (observed_lookup_set E file packages)
     ∧ ∀ rows, tt r = Some rows →
         ∀ a, a ∈ rows.*1
              ↔ observed (read_packets file packages) a
                ∧ is_global E a && negb (is_multicast E a) = true.
Proof.
  intros Hall.
  exists (completed_run E file packages trace),
         (elements (observed_lookup_set E file packages)).
  pose proof (completed_mapping_dom E file packages trace) as Hdom. cbv zeta in Hdom.
  change (addrs (completed_run E file packages trace))
    with (observed_lookup_set E file packages) in Hdom.
  assert (∀ a, a ∈ dom (mapping (completed_run E file packages trace))
               ↔ observed (read_packets file packages) a
                 ∧ is_global E a && negb (is_multicast E a) = true) as Hmem.
  { intros a. rewrite Hdom. apply elem_of_observed_lookup_set. }
  split_and!.
  - by apply main_completes.
  - exact Hdom.
  - exact Hmem.
  - intros a Ha. rewrite Hdom in Ha. rewrite completed_mapping_lookup.
    by rewrite decide_True.
  - by rewrite <- size_dom, Hdom.
  - intros rows Hrows a. rewrite <- Hmem.
    change (tt (completed_run E file packages trace))
      with (if trace then Some (map_to_list (mapping (completed_run E file packages trace)))
            else None) in Hrows.
    destruct trace; [|done]. injection Hrows as <-.
    rewrite elem_of_dom, list_elem_of_fmap. split.
    + intros ([k v] & -> & Hkv%elem_of_map_to_list). by exists v.
    + intros [v Hv]. exists (a, v). split; [done|]. by apply elem_of_map_to_list.
Qed.

(** The statement at [capture_mixed], with the trace table asked for: the
    public sources 8.8.8.8 and 1.1.1.1 are keys, bound to the country of
    their lookup; the private 10.0.0.5 and the multicast 224.0.0.1 are
    not. *)
Lemma mapping_domain_is_lookup_set_witness :
  ∃ r w, run_main all_us capture_mixed None true = (inr r, w)
     ∧ mapping r !! ipv4 8 8 8 8 = Some (Some "US")
     ∧ ipv4 1 1 1 1 ∈ dom (mapping r)
     ∧ (ipv4 10 0 0 5 ∉ dom (mapping r))
     ∧ (ipv4 224 0 0 1 ∉ dom (mapping r))
     ∧ size (mapping r) = 2.
Proof.
  destruct (mapping_domain_is_lookup_set all_us capture_mixed None true)
    as (r & w & Hrun & _ & Hmem & Hval & Hsize & _).
  - intros b _. by eexists.
  - assert (∀ s d, In {| src := s; dst := d |} (pairs capture_mixed) →
              observed (read_packets capture_mixed None) s) as Hsrc.
    { intros s d Hin. exists {| src := s; dst := d |}.
      split; [by apply list_elem_of_In|by left]. }
    exists r, w. split_and!.
    + exact Hrun.
    + rewrite Hval; [reflexivity|]. apply Hmem. split; [|reflexivity].
      apply (Hsrc _ (ipv4 10 0 0 1)). vm_compute. tauto.
    + apply Hmem. split; [|reflexivity].
      apply (Hsrc _ (ipv4 10 0 0 1)). vm_compute. tauto.
    + intros [_ Hel]%Hmem. vm_compute in Hel. discriminate.
    + intros [_ Hel]%Hmem. vm_compute in Hel. discriminate.
    + rewrite Hsize. vm_compute. reflexivity.
Defined.

(** ** The sum of the rows *)

(** C7 (as amended): in a run whose lookups all answer and whose capture
    has at least one packet with an IPv4 layer, the counts of the rows of a
    role, the row LOCAL included, are positive and add up to the number by
    which each of them is divided, the number of packets with an IPv4
    layer; so the exact quotients, times 100, add up to 100. *)
Theorem row_counts_sum_to_pairs (E : Env) (file : list Packet)
    (packages : option Z) (trace : bool) :
  (∀ b, b ∈ observed_lookup_set E file packages → is_Some (whois_text E b)) →
  pairs (read_packets file packages) ≠ [] →
  ∃ r w, run_main E file packages trace = (inr r, w)
     ∧ length (src_country r) = length (pairs (read_packets file packages))
     ∧ length (dest_country r) = length (pairs (read_packets file packages))
     ∧ sum_list_with snd (value_counts (src_country r))
       = length (pairs (read_packets file packages))
     ∧ sum_list_with snd (value_counts (dest_country r))
       = length (pairs (read_packets file packages))
     ∧ (∀ c k, (c, k) ∈ value_counts (src_country r)
               ↔ 0 < k ∧ k = pairs_counted_under E src c (read_packets file packages))
     ∧ (∀ c k, (c, k) ∈ value_counts (dest_country r)
               ↔ 0 < k ∧ k = pairs_counted_under E dst c (read_packets file packages))
     ∧ (Qsum (map (λ row : string * nat,
                     inject_Z (Z.of_nat row.2)
                     / inject_Z (Z.of_nat (length (pairs (read_packets file packages))))
                     * 100)
                  (value_counts (src_country r))) == 100)%Q
     ∧ (Qsum (map (λ row : string * nat,
                     inject_Z (Z.of_nat row.2)
                     / inject_Z (Z.of_nat (length (pairs (read_packets file packages))))
                     * 100)
                  (value_counts (dest_country r))) == 100)%Q.
Proof.
  intros Hall Hne.
  exists (completed_run E file packages trace),
         (elements (observed_lookup_set E file packages)).
  rewrite completed_src_country, completed_dest_country.
  set (n := length (pairs (read_packets file packages))).
  assert (0 < n) as Hn.
  { unfold n. destruct (pairs (read_packets file packages)); [done|simpl; lia]. }
  assert (∀ role : IPLayer → Address,
            sum_list_with snd
              (value_counts (map (λ pr, counted_under E (role pr))
                               (pairs (read_packets file packages)))) = n) as Hsum.
  { intros role. by rewrite value_counts_total, length_map. }
  assert (∀ rows : list (string * nat),
            sum_list_with snd rows = n →
            (Qsum (map (λ row : string * nat,
                          inject_Z (Z.of_nat row.2) / inject_Z (Z.of_nat n) * 100) rows)
             == 100)%Q) as Hexact.
  { intros rows Hrows.
    change (Qsum (map (λ r : string * nat, percentage r.2 n) rows) == 100)%Q.
    rewrite Qsum_percentage, Hrows. by apply percentage_all. }
  split_and!.
  - by apply main_completes.
  - apply length_map.
  - apply length_map.
  - apply Hsum.
  - apply Hsum.
  - intros c k. apply role_value_counts.
  - intros c k. apply role_value_counts.
  - apply Hexact, Hsum.
  - apply Hexact, Hsum.
Qed.

(** The statement at [capture_mixed]: the source rows are US with 3 packets
    and LOCAL with 1, of 4. *)
Lemma row_counts_sum_to_pairs_witness :
  ∃ r w, run_main all_us capture_mixed None false = (inr r, w)
     ∧ ("US", 3) ∈ value_counts (src_country r)
     ∧ ("LOCAL", 1) ∈ value_counts (src_country r)
     ∧ sum_list_with snd (value_counts (src_country r)) = 4.
Proof.
  destruct (row_counts_sum_to_pairs all_us capture_mixed None false)
    as (r & w & Hrun & _ & _ & Hsum & _ & Hrows & _).
  - intros b _. by eexists.
  - by vm_compute.
  - exists r, w. split_and!.
    + exact Hrun.
    + apply Hrows. split; [lia|]. vm_compute. reflexivity.
    + apply Hrows. split; [lia|]. vm_compute. reflexivity.
    + rewrite Hsum. vm_compute. reflexivity.
Defined.

(** C7 (as stated) fails on a capture with no IPv4 packet, where no row is
    printed for either role, and it fails for the values the script
    computes: with one packet in three under each of three countries, each
    row is the binary64 value of 1 / 3 * 100, and three times that value is
    less than 100, as a sum of numbers and as the binary64 sum. *)
Lemma percentages_do_not_sum_to_100 :
  (∃ r, (run_main all_us capture_arp_only None false).1 = inr r
      ∧ value_counts (src_country r) = [] ∧ value_counts (dest_country r) = []
      ∧ f64_percentages (src_country r) = [] ∧ inc r = [] ∧ outc r = []
      ∧ ¬ (Qsum (src_cc_perc r).*2 == 100)%Q)
  ∧ ∃ r p q, (run_main flaky capture_thirds None false).1 = inr r
      ∧ (f64_percentages (src_country r)).*2 = [p; p; p]
      ∧ p = f64_percentage 1 3
      ∧ f64_value p = Some q
      ∧ (q + q + q < 100)%Q
      ∧ PrimFloat.ltb (PrimFloat.add (PrimFloat.add p p) p) (f64_of_nat 100) = true.
Proof.
  split.
  - eexists. split; [vm_compute; reflexivity|]. split_and!; by vm_compute.
  - eexists _, _, _. split; [vm_compute; reflexivity|].
    split; [vm_compute; reflexivity|].
    split; [vm_compute; reflexivity|].
    split; [vm_compute; reflexivity|].
    split; by vm_compute.
Qed.
